(** * s3x: an S3 gateway over a content-addressed DAG store

    A shallow embedding of the ledger of the s3x gateway
    (cmd/gateway/s3x) and of its S3 object operations, with the
    properties of the gateway's specification stated over it.

    Layout: Go prelude, errors and results, the first ledger
    (LedgerStore, one protobuf ledger under a single datastore key), the
    second ledger (ledgerStore: bucket records in the DAG store, a local
    index and a multipart registry), the CRDT DAG syncer, then the
    theorems. *)

From Stdlib Require Import ZArith String Ascii Lia.
From Stdlib.Strings Require Import Byte.
From stdpp Require Import base tactics option strings gmap list sorting pretty.

Local Open Scope string_scope.
Local Open Scope Z_scope.

(** ** Go prelude *)

Module Go.

(** [strings.Compare a b]: -1, 0 or 1, comparing byte by byte. *)
Definition strings_Compare (a b : string) : Z :=
  match String.compare a b with
  | Lt => -1
  | Eq => 0
  | Gt => 1
  end.

(** [strings.HasPrefix s prefix]. *)
Definition strings_HasPrefix (s prefix : string) : bool :=
  String.prefix prefix s.

(** The order of [sort.Strings]: [a <= b] on Go strings. *)
Definition string_le (a b : string) : Prop := String.leb a b = true.

Definition string_lt (a b : string) : Prop := String.compare a b = Lt.

#[export] Instance string_le_dec (a b : string) : Decision (string_le a b).
Proof. unfold string_le. apply _. Defined.

#[export] Instance string_lt_dec (a b : string) : Decision (string_lt a b).
Proof. unfold string_lt. apply _. Defined.

(** [sort.Strings]: the result is determined by the input as a
    multiset, so any sorting algorithm models it. *)
Definition sort_Strings (names : list string) : list string :=
  merge_sort string_le names.

(** [unicode.ToLower] on an ASCII byte, and [strings.ToLower] on ASCII
    text. *)
Definition lower_ascii (c : ascii) : ascii :=
  let n := N_of_ascii c in
  if ((65 <=? n) && (n <=? 90))%N then ascii_of_N (n + 32) else c.

Fixpoint strings_ToLower (s : string) : string :=
  match s with
  | EmptyString => EmptyString
  | String c s' => String (lower_ascii c) (strings_ToLower s')
  end.

(** [int64] arithmetic wraps around silently. *)
Definition wrap64 (z : Z) : Z := (z + 2 ^ 63) mod 2 ^ 64 - 2 ^ 63.

Definition int64_add (a b : Z) : Z := wrap64 (a + b).

Definition in_int64 (z : Z) : Prop := - 2 ^ 63 <= z < 2 ^ 63.

(** [len(s)] as an [int]. *)
Definition len {A} (s : list A) : Z := Z.of_nat (length s).

(** The slice expression [s[lo:hi]] on a slice whose capacity is its
    length: it panics unless [0 <= lo <= hi <= len(s)]. *)
Definition slice {A} (s : list A) (lo hi : Z) : option (list A) :=
  if ((0 <=? lo) && (lo <=? hi) && (hi <=? len s))%Z
  then Some (take (Z.to_nat (hi - lo)) (drop (Z.to_nat lo) s))
  else None.

End Go.

Export Go.

(** ** Errors and results *)

(** The error values of the gateway. The first group are the ledger's
    sentinel errors, the second the object-layer errors of minio the S3
    frontend reports, the third the failures of the DAG client. *)
Inductive error : Type :=
  | ErrLedgerBucketDoesNotExist
  | ErrLedgerBucketExists
  | ErrLedgerObjectDoesNotExist
  | ErrInvalidUploadID
  | BucketNotFound
  | BucketExists
  | ObjectNotFound
  | InvalidUploadID
  | InvalidRange (OffsetBegin OffsetEnd ResourceSize : Z)
  | ErrNotFound
  | ErrDAGUnavailable
  | ErrCIDMismatch
  | ErrCorrupt
  | ErrUnexpectedData
  | ErrOther (msg : string).

(** Run-time panics of Go. *)
Inductive panic : Type :=
  | NilMapWrite
  | NilDereference
  | SliceBounds (lo hi : Z).

(** The outcome of a Go call: a value, a returned error, or a panic. *)
Inductive result (A : Type) : Type :=
  | Ok (a : A)
  | Err (e : error)
  | Fault (p : panic).

Arguments Ok {A} a.
Arguments Err {A} e.
Arguments Fault {A} p.

Definition bind {A B} (r : result A) (k : A -> result B) : result B :=
  match r with
  | Ok a => k a
  | Err e => Err e
  | Fault p => Fault p
  end.


Definition faults {A} (r : result A) : bool :=
  match r with Fault _ => true | _ => false end.

(** Modelled from the spec: [toMinioErr], declared elsewhere in the
    package, maps the ledger's errors to the object-layer errors
    (section 4.6: BucketNotFound, ObjectNotFound, BucketExists,
    InvalidUploadID) and leaves every other error as it is. *)
Definition toMinioErr (e : error) : error :=
  match e with
  | ErrLedgerBucketDoesNotExist => BucketNotFound
  | ErrLedgerBucketExists => BucketExists
  | ErrLedgerObjectDoesNotExist => ObjectNotFound
  | ErrInvalidUploadID => InvalidUploadID
  | e => e
  end.

Definition mapErr {A} (f : error -> error) (r : result A) : result A :=
  match r with
  | Ok a => Ok a
  | Err e => Err (f e)
  | Fault p => Fault p
  end.

(** ** Records shared by both ledgers *)

(** [ObjectInfo] (protobuf message): times are seconds since the epoch,
    the zero time is 0. *)
Record ObjectInfo : Type := mkObjectInfo {
  Bucket : string;
  Name : string;
  ModTime : Z;
  Size_ : Z;
  ContentEncoding : string;
  ContentDisposition : string;
  ContentLanguage : string;
  ContentType : string
}.

Definition zeroObjectInfo : ObjectInfo :=
  mkObjectInfo "" "" 0 0 "" "" "" "".

(** The loop over [opts.UserDefined] that both versions of PutObject
    run: the pairs are taken in the order the map iteration yields
    them. *)
Definition setUserDefined (obinfo : ObjectInfo) (kv : string * string) : ObjectInfo :=
  let k := strings_ToLower (fst kv) in
  let v := snd kv in
  if String.eqb k "content-encoding" then
    mkObjectInfo (Bucket obinfo) (Name obinfo) (ModTime obinfo) (Size_ obinfo)
      v (ContentDisposition obinfo) (ContentLanguage obinfo) (ContentType obinfo)
  else if String.eqb k "content-disposition" then
    mkObjectInfo (Bucket obinfo) (Name obinfo) (ModTime obinfo) (Size_ obinfo)
      (ContentEncoding obinfo) v (ContentLanguage obinfo) (ContentType obinfo)
  else if String.eqb k "content-language" then
    mkObjectInfo (Bucket obinfo) (Name obinfo) (ModTime obinfo) (Size_ obinfo)
      (ContentEncoding obinfo) (ContentDisposition obinfo) v (ContentType obinfo)
  else if String.eqb k "content-type" then
    mkObjectInfo (Bucket obinfo) (Name obinfo) (ModTime obinfo) (Size_ obinfo)
      (ContentEncoding obinfo) (ContentDisposition obinfo) (ContentLanguage obinfo) v
  else obinfo.

Definition applyUserDefined (obinfo : ObjectInfo) (UserDefined : list (string * string))
  : ObjectInfo :=
  fold_left setUserDefined UserDefined obinfo.

Definition setSize (obinfo : ObjectInfo) (size : Z) : ObjectInfo :=
  mkObjectInfo (Bucket obinfo) (Name obinfo) (ModTime obinfo) size
    (ContentEncoding obinfo) (ContentDisposition obinfo)
    (ContentLanguage obinfo) (ContentType obinfo).

(** ** The first ledger: [LedgerStore] (one ledger under [ledgerKey]) *)

Module V1.

Record LedgerObjectEntry : Type := mkLedgerObjectEntry {
  oe_Name : string;
  oe_IpfsHash : string
}.

Record LedgerBucketEntry : Type := mkLedgerBucketEntry {
  be_Objects : gmap string LedgerObjectEntry;
  be_Name : string;
  be_IpfsHash : string
}.

(** A Go map of struct values: a lookup of an absent key yields the zero
    value. The maps of the ledger are written only behind the guards of
    NewBucket and AddObjectToBucket that allocate a nil map, so nil and
    empty maps are one value here. *)
Record Ledger : Type := mkLedger {
  Buckets : gmap string LedgerBucketEntry
}.

Definition zeroObjectEntry : LedgerObjectEntry := mkLedgerObjectEntry "" "".

Definition zeroBucketEntry : LedgerBucketEntry := mkLedgerBucketEntry ∅ "" "".

Definition bucketAt (ledger : Ledger) (name : string) : LedgerBucketEntry :=
  default zeroBucketEntry (Buckets ledger !! name).

Definition objectAt (b : LedgerBucketEntry) (object : string) : LedgerObjectEntry :=
  default zeroObjectEntry (be_Objects b !! object).

(** The datastore under the ledger: the value stored under [ledgerKey],
    as the ledger it unmarshals to; [None] when the key is absent. *)
Record LedgerStore : Type := mkLedgerStore {
  ds : option Ledger
}.

(** [getLedger]: a fresh ledger unmarshalled from the stored bytes. *)
Definition getLedger (le : LedgerStore) : result Ledger :=
  match ds le with
  | Some ledger => Ok ledger
  | None => Err ErrNotFound
  end.

(** [putLedger]: marshal and store. *)
Definition putLedger (ledger : Ledger) (le : LedgerStore) : result unit * LedgerStore :=
  (Ok tt, mkLedgerStore (Some ledger)).

(** [createLedgerIfNotExist] as run by [newLedgerStore]. *)
Definition createLedgerIfNotExist (le : LedgerStore) : LedgerStore :=
  match getLedger le with
  | Ok _ => le
  | _ => mkLedgerStore (Some (mkLedger ∅))
  end.

Definition newLedgerStore : LedgerStore :=
  createLedgerIfNotExist (mkLedgerStore None).

Definition bucketExists (ledger : Ledger) (name : string) : bool :=
  negb (String.eqb (be_Name (bucketAt ledger name)) "").

Definition objectExists (ledger : Ledger) (bucket object : string) : result unit :=
  if String.eqb (be_Name (bucketAt ledger bucket)) "" then
    Err ErrLedgerBucketDoesNotExist
  else if String.eqb (oe_Name (objectAt (bucketAt ledger bucket) object)) "" then
    Err ErrLedgerObjectDoesNotExist
  else Ok tt.

Definition NewBucket (name hash : string) (le : LedgerStore)
  : result unit * LedgerStore :=
  match getLedger le with
  | Ok ledger =>
      if bucketExists ledger name then (Err ErrLedgerBucketExists, le)
      else
        putLedger
          (mkLedger (<[name := mkLedgerBucketEntry ∅ name hash]> (Buckets ledger)))
          le
  | Err e => (Err e, le)
  | Fault p => (Fault p, le)
  end.

Definition UpdateBucketHash (name hash : string) (le : LedgerStore)
  : result unit * LedgerStore :=
  match getLedger le with
  | Ok ledger =>
      if negb (bucketExists ledger name) then (Err ErrLedgerBucketDoesNotExist, le)
      else
        let entry := bucketAt ledger name in
        let entry := mkLedgerBucketEntry (be_Objects entry) (be_Name entry) hash in
        putLedger (mkLedger (<[name := entry]> (Buckets ledger))) le
  | Err e => (Err e, le)
  | Fault p => (Fault p, le)
  end.

(** [RemoveObject]: the entry is deleted from the map of the ledger that
    [getLedger] has just unmarshalled, and the function returns [nil]
    without [putLedger]: the datastore keeps the bytes it had. *)
Definition RemoveObject (bucketName objectName : string) (le : LedgerStore)
  : result unit * LedgerStore :=
  match getLedger le with
  | Ok ledger =>
      match objectExists ledger bucketName objectName with
      | Ok _ =>
          let ledger' :=
            mkLedger
              (alter (fun b => mkLedgerBucketEntry (delete objectName (be_Objects b))
                                 (be_Name b) (be_IpfsHash b))
                 bucketName (Buckets ledger)) in
          (Ok tt, le)
      | Err e => (Err e, le)
      | Fault p => (Fault p, le)
      end
  | Err e => (Err e, le)
  | Fault p => (Fault p, le)
  end.

Definition AddObjectToBucket (bucketName objectName objectHash : string)
  (le : LedgerStore) : result unit * LedgerStore :=
  match getLedger le with
  | Ok ledger =>
      if negb (bucketExists ledger bucketName) then
        (Err ErrLedgerBucketDoesNotExist, le)
      else
        let bucket := bucketAt ledger bucketName in
        let bucket :=
          mkLedgerBucketEntry
            (<[objectName := mkLedgerObjectEntry objectName objectHash]>
               (be_Objects bucket))
            (be_Name bucket) (be_IpfsHash bucket) in
        putLedger (mkLedger (<[bucketName := bucket]> (Buckets ledger))) le
  | Err e => (Err e, le)
  | Fault p => (Fault p, le)
  end.

Definition DeleteBucket (name : string) (le : LedgerStore)
  : result unit * LedgerStore :=
  match getLedger le with
  | Ok ledger =>
      if String.eqb (be_Name (bucketAt ledger name)) "" then
        (Err ErrLedgerBucketDoesNotExist, le)
      else putLedger (mkLedger (delete name (Buckets ledger))) le
  | Err e => (Err e, le)
  | Fault p => (Fault p, le)
  end.

Definition BucketExists (name : string) (le : LedgerStore) : bool :=
  match getLedger le with
  | Ok ledger => bucketExists ledger name
  | _ => false
  end.

Definition ObjectExists (bucketName objectName : string) (le : LedgerStore)
  : result unit :=
  bind (getLedger le) (fun ledger => objectExists ledger bucketName objectName).

Definition GetObjectHash (bucketName objectName : string) (le : LedgerStore)
  : result string :=
  bind (getLedger le) (fun ledger =>
    if String.eqb (be_Name (bucketAt ledger bucketName)) "" then
      Err ErrLedgerBucketDoesNotExist
    else
      let bucket := bucketAt ledger bucketName in
      if String.eqb (oe_Name (objectAt bucket objectName)) "" then
        Err ErrLedgerObjectDoesNotExist
      else Ok (oe_IpfsHash (objectAt bucket objectName))).

(** [GetBucketHash]. *)
Definition GetBucketHash (name : string) (le : LedgerStore) : result string :=
  bind (getLedger le) (fun ledger =>
    if String.eqb (be_Name (bucketAt ledger name)) "" then
      Err ErrLedgerBucketDoesNotExist
    else Ok (be_IpfsHash (bucketAt ledger name))).

(** The loop of [GetObjectHashes] over the entries of a bucket, in the
    order the map iteration yields them: each entry is written under its
    [Name], a later entry over an earlier one of the same name. *)
Definition collectHashes (entries : list LedgerObjectEntry) : gmap string string :=
  fold_left (fun hashes obj => <[oe_Name obj := oe_IpfsHash obj]> hashes) entries ∅.

(** [GetObjectHashes]: the order of the iteration is unspecified in Go;
    it is the order of [map_to_list] here. *)
Definition GetObjectHashes (bucket : string) (le : LedgerStore)
  : result (gmap string string) :=
  bind (getLedger le) (fun ledger =>
    if negb (bucketExists ledger bucket) then Err ErrLedgerBucketDoesNotExist
    else
      Ok (collectHashes (map snd (map_to_list (be_Objects (bucketAt ledger bucket)))))).

(** [GetBucketNames]: the [Name] of every entry, in the order of the
    iteration. *)
Definition GetBucketNames (le : LedgerStore) : result (list string) :=
  bind (getLedger le) (fun ledger =>
    Ok (map (fun kv => be_Name (snd kv)) (map_to_list (Buckets ledger)))).

(** The states the ledger store reaches from [newLedgerStore] by its
    setter functions. *)
Inductive step : LedgerStore -> LedgerStore -> Prop :=
  | step_NewBucket name hash le :
      step le (snd (NewBucket name hash le))
  | step_UpdateBucketHash name hash le :
      step le (snd (UpdateBucketHash name hash le))
  | step_RemoveObject bucketName objectName le :
      step le (snd (RemoveObject bucketName objectName le))
  | step_AddObjectToBucket bucketName objectName objectHash le :
      step le (snd (AddObjectToBucket bucketName objectName objectHash le))
  | step_DeleteBucket name le :
      step le (snd (DeleteBucket name le)).

Inductive reachable : LedgerStore -> Prop :=
  | reachable_new : reachable newLedgerStore
  | reachable_step le le' : reachable le -> step le le' -> reachable le'.

(** Every bucket entry of the ledger is stored under its own name. *)
Definition names_match (ledger : Ledger) : Prop :=
  forall k e, Buckets ledger !! k = Some e -> be_Name e = k.

Definition store_names_match (le : LedgerStore) : Prop :=
  forall ledger, ds le = Some ledger -> names_match ledger.

(** Every object entry of every bucket is stored under its own name. *)
Definition objects_match (ledger : Ledger) : Prop :=
  forall k e o oe,
    Buckets ledger !! k = Some e -> be_Objects e !! o = Some oe -> oe_Name oe = o.

Definition store_objects_match (le : LedgerStore) : Prop :=
  forall ledger, ds le = Some ledger -> objects_match ledger.

(** *** The S3 object operations over the first ledger *)

(** [Object] (protobuf message) of this version carries the data. *)
Record Object : Type := mkObject {
  Data : list byte;
  ObjectInfo_ : ObjectInfo
}.

Section Gateway.

(** The helpers of the gateway that write to and read from the remote
    node are declared in another file of the package; they are taken as
    parameters. [ipfs] is the state of the remote node; none of them
    touches the ledger store, which the callers below update
    themselves. *)
Variable ipfs : Type.
Variable objectToIPFS : Object -> ipfs -> result string * ipfs.
Variable addObjectToBucketAndIPFS :
  string -> string -> string -> LedgerStore -> ipfs -> result string * ipfs.
Variable objectFromBucket : string -> string -> LedgerStore -> ipfs -> result Object.
Variable getMinioObjectInfo : string -> string -> LedgerStore -> ipfs -> result ObjectInfo.

Record xObjects : Type := mkxObjects {
  ledgerStore : LedgerStore;
  dagClient : ipfs
}.

(** [GetObject]: the bytes written to [writer]. *)
Definition GetObject (bucket object : string) (x : xObjects) : result (list byte) :=
  match ObjectExists bucket object (ledgerStore x) with
  | Ok _ =>
      match objectFromBucket bucket object (ledgerStore x) (dagClient x) with
      | Ok obj => Ok (Data obj)
      | Err e => Err (toMinioErr e)
      | Fault p => Fault p
      end
  | Err e => Err (toMinioErr e)
  | Fault p => Fault p
  end.

(** [PutObject]: [now] is the reading of the clock, [data] what
    [ioutil.ReadAll] reads from the request. *)
Definition PutObject (bucket object : string) (data : list byte)
  (UserDefined : list (string * string)) (now : Z) (x : xObjects)
  : result ObjectInfo * xObjects :=
  if negb (BucketExists bucket (ledgerStore x)) then
    (Err (toMinioErr ErrLedgerBucketDoesNotExist), x)
  else
    let obinfo := mkObjectInfo bucket object now 0 "" "" "" "" in
    let obinfo := applyUserDefined obinfo UserDefined in
    let obinfo := setSize obinfo (len data) in
    match objectToIPFS (mkObject data obinfo) (dagClient x) with
    | (Ok objectHash, node1) =>
        let x1 := mkxObjects (ledgerStore x) node1 in
        match addObjectToBucketAndIPFS object objectHash bucket (ledgerStore x1) node1 with
        | (Ok bucketHash, node2) =>
            match UpdateBucketHash bucket bucketHash (ledgerStore x1) with
            | (Ok _, le1) =>
                match AddObjectToBucket bucket object objectHash le1 with
                | (Ok _, le2) =>
                    let x2 := mkxObjects le2 node2 in
                    (getMinioObjectInfo bucket object le2 node2, x2)
                | (Err e, le2) => (Err (toMinioErr e), mkxObjects le2 node2)
                | (Fault p, le2) => (Fault p, mkxObjects le2 node2)
                end
            | (Err e, le1) => (Err (toMinioErr e), mkxObjects le1 node2)
            | (Fault p, le1) => (Fault p, mkxObjects le1 node2)
            end
        | (Err e, node2) => (Err (toMinioErr e), mkxObjects (ledgerStore x) node2)
        | (Fault p, node2) => (Fault p, mkxObjects (ledgerStore x) node2)
        end
    | (Err e, node1) => (Err (toMinioErr e), mkxObjects (ledgerStore x) node1)
    | (Fault p, node1) => (Fault p, mkxObjects (ledgerStore x) node1)
    end.

Definition DeleteObject (bucket object : string) (x : xObjects)
  : result unit * xObjects :=
  let '(r, le) := RemoveObject bucket object (ledgerStore x) in
  (mapErr toMinioErr r, mkxObjects le (dagClient x)).

(** [GetObjectInfo]. *)
Definition GetObjectInfo (bucket object : string) (x : xObjects) : result ObjectInfo :=
  if negb (BucketExists bucket (ledgerStore x)) then
    Err (toMinioErr ErrLedgerBucketDoesNotExist)
  else
    mapErr toMinioErr (getMinioObjectInfo bucket object (ledgerStore x) (dagClient x)).

(** What a listing returns: the list [loi.Objects] with no error, the
    list as far as it was filled with the error of the object that
    failed, the panic of an index expression out of range, or a panic of
    a helper. *)
Inductive listing : Type :=
  | Listed (Objects : list ObjectInfo)
  | ListingFailed (Objects : list ObjectInfo) (e : error)
  | IndexOutOfRange (index length : nat)
  | ListingFault (p : panic).

(** The loop of both listings: [loi.Objects[count] = info; count++] for
    every name, in the order of the iteration. *)
Fixpoint fillObjects (bucket : string) (names : list string)
  (Objects : list ObjectInfo) (count : nat) (x : xObjects) : listing :=
  match names with
  | [] => Listed Objects
  | name :: rest =>
      match getMinioObjectInfo bucket name (ledgerStore x) (dagClient x) with
      | Ok info =>
          if decide (count < length Objects)%nat then
            fillObjects bucket rest (<[count := info]> Objects) (S count) x
          else IndexOutOfRange count (length Objects)
      | Err e => ListingFailed Objects (toMinioErr e)
      | Fault p => ListingFault p
      end
  end.

(** [ListObjects]: one slot per object hash. *)
Definition ListObjects (bucket prefix marker delimiter : string) (maxKeys : Z)
  (x : xObjects) : listing :=
  if negb (BucketExists bucket (ledgerStore x)) then
    ListingFailed [] (toMinioErr ErrLedgerBucketDoesNotExist)
  else
    match GetObjectHashes bucket (ledgerStore x) with
    | Ok objHashes =>
        fillObjects bucket (map fst (map_to_list objHashes))
          (replicate (size objHashes) zeroObjectInfo) 0 x
    | Err e => ListingFailed [] (toMinioErr e)
    | Fault p => ListingFault p
    end.

(** [ListObjectsV2]: at most 1000 slots, and the same loop over every
    object hash. *)
Definition ListObjectsV2 (bucket prefix continuationToken delimiter : string)
  (maxKeys : Z) (fetchOwner : bool) (startAfter : string) (x : xObjects) : listing :=
  if negb (BucketExists bucket (ledgerStore x)) then
    ListingFailed [] (toMinioErr ErrLedgerBucketDoesNotExist)
  else
    match GetObjectHashes bucket (ledgerStore x) with
    | Ok objHashes =>
        let slots := if decide (1000 <= size objHashes)%nat then 1000%nat
                     else size objHashes in
        fillObjects bucket (map fst (map_to_list objHashes))
          (replicate slots zeroObjectInfo) 0 x
    | Err e => ListingFailed [] (toMinioErr e)
    | Fault p => ListingFault p
    end.

(** [CopyObject]: the object hash of the source is added to the bucket
    on the remote node, and the hash of the destination bucket is
    updated in the ledger. *)
Definition CopyObject (srcBucket srcObject dstBucket dstObject : string) (x : xObjects)
  : result ObjectInfo * xObjects :=
  if negb (BucketExists srcBucket (ledgerStore x)) then
    (Err (toMinioErr ErrLedgerBucketDoesNotExist), x)
  else if negb (BucketExists dstBucket (ledgerStore x)) then
    (Err (toMinioErr ErrLedgerBucketDoesNotExist), x)
  else
    match GetObjectHash srcBucket srcObject (ledgerStore x) with
    | Ok objHash =>
        match addObjectToBucketAndIPFS dstObject objHash dstBucket
                (ledgerStore x) (dagClient x) with
        | (Ok dstBucketHash, node1) =>
            match UpdateBucketHash dstBucket dstBucketHash (ledgerStore x) with
            | (Ok _, le1) =>
                (mapErr toMinioErr (getMinioObjectInfo dstBucket dstObject le1 node1),
                 mkxObjects le1 node1)
            | (Err e, le1) => (Err (toMinioErr e), mkxObjects le1 node1)
            | (Fault p, le1) => (Fault p, mkxObjects le1 node1)
            end
        | (Err e, node1) => (Err (toMinioErr e), mkxObjects (ledgerStore x) node1)
        | (Fault p, node1) => (Fault p, mkxObjects (ledgerStore x) node1)
        end
    | Err e => (Err (toMinioErr e), x)
    | Fault p => (Fault p, x)
    end.

(** [DeleteObjects]: one entry of [errs] per name, [None] being the nil
    error; the error of the call itself is always nil. *)
Fixpoint DeleteObjects (bucket : string) (objects : list string) (x : xObjects)
  : result (list (option error)) * xObjects :=
  match objects with
  | [] => (Ok [], x)
  | object :: rest =>
      match RemoveObject bucket object (ledgerStore x) with
      | (Fault p, le) => (Fault p, mkxObjects le (dagClient x))
      | (r, le) =>
          let err := match r with
                     | Err e => Some (toMinioErr e)
                     | _ => None
                     end in
          match DeleteObjects bucket rest (mkxObjects le (dagClient x)) with
          | (Ok errs, x') => (Ok (err :: errs), x')
          | other => other
          end
      end
  end.

End Gateway.

End V1.

(** ** The second ledger: [ledgerStore] (bucket records in the DAG store) *)

Module V2.

(** [Object] (protobuf message) of this version points to its data: the
    two fields PutObject and CopyObject set. *)
Record Object : Type := mkObject {
  DataHash : string;
  ObjectInfo_ : ObjectInfo
}.

(** Modelled from the spec: the bucket record (section 3), whose
    message is declared in another file of the package. [Objects] maps
    an object name to the CID of its object record. *)
Record BucketRecord : Type := mkBucketRecord {
  b_Name : string;
  b_Created : Z;
  b_Location : string;
  Objects : gmap string string
}.

Record ObjectPartInfo : Type := mkObjectPartInfo {
  Number : Z;
  op_DataHash : string
}.

(** [ObjectParts] is a Go map that may be nil ([None]); a write to a nil
    map panics, a read of it finds nothing. *)
Record MultipartUpload : Type := mkMultipartUpload {
  mu_ObjectInfo : ObjectInfo;
  Id : string;
  ObjectParts : option (gmap string ObjectPartInfo)
}.

(** [MultipartUploads] is a [map[string]*MultipartUpload] that may be nil
    ([None]): a lookup of an absent key yields the nil pointer. *)
Record Ledger : Type := mkLedger {
  MultipartUploads : option (gmap string MultipartUpload)
}.

(** [m.MultipartUploads[id]]: [None] is the nil pointer. *)
Definition uploadAt (m : Ledger) (id : string) : option MultipartUpload :=
  match MultipartUploads m with
  | Some uploads => uploads !! id
  | None => None
  end.

(** Modelled from the spec: a block of the remote DAG store (section
    4.1) is raw object bytes, or a serialised object or bucket record;
    the serialisation is kept abstract. *)
Inductive Block : Type :=
  | RawBlock (data : list byte)
  | ObjectBlock (obj : Object)
  | BucketBlock (b : BucketRecord).

(** Modelled from the spec: the state behind [ledgerStore], whose
    struct is declared in another file of the package (sections 3 and
    4.1 to 4.4): the local index [ds] (bucket name to the CID of the
    current bucket record), the remote DAG store [dag], the bucket cache
    and the in-memory ledger [l] of multipart uploads. *)
Record ledgerStore : Type := mkLedgerStore {
  ds : gmap string string;
  dag : gmap string Block;
  cache : gmap string BucketRecord;
  l : Ledger
}.

Definition set_dag (f : gmap string Block -> gmap string Block) (ls : ledgerStore)
  : ledgerStore :=
  mkLedgerStore (ds ls) (f (dag ls)) (cache ls) (l ls).

Definition set_cache (f : gmap string BucketRecord -> gmap string BucketRecord)
  (ls : ledgerStore) : ledgerStore :=
  mkLedgerStore (ds ls) (dag ls) (f (cache ls)) (l ls).

Definition set_ds (f : gmap string string -> gmap string string) (ls : ledgerStore)
  : ledgerStore :=
  mkLedgerStore (f (ds ls)) (dag ls) (cache ls) (l ls).

Definition set_l (m : Ledger) (ls : ledgerStore) : ledgerStore :=
  mkLedgerStore (ds ls) (dag ls) (cache ls) m.

(** Calls on the ledger store thread its state and stop at the first
    error or panic, keeping the writes done so far. *)
Definition M (A : Type) : Type := ledgerStore -> result A * ledgerStore.

Definition ret {A} (a : A) : M A := fun ls => (Ok a, ls).

Definition throw {A} (e : error) : M A := fun ls => (Err e, ls).

Definition crash {A} (p : panic) : M A := fun ls => (Fault p, ls).

Definition mbind {A B} (m : M A) (k : A -> M B) : M B :=
  fun ls =>
    match m ls with
    | (Ok a, ls') => k a ls'
    | (Err e, ls') => (Err e, ls')
    | (Fault p, ls') => (Fault p, ls')
    end.

Notation "'do' x <- m ; k" := (mbind m (fun x => k))
  (at level 10, x binder, m at level 100, k at level 200).

(** [x.toMinioErr(err, ...)] on the way out. *)
Definition convertErr {A} (m : M A) : M A :=
  fun ls => let '(r, ls') := m ls in (mapErr toMinioErr r, ls').

(** The acquisitions of the per-bucket lock table, in program order. *)
Inductive lockEvent : Type :=
  | LockRead (name : string)
  | LockWrite (name : string).

Definition lockName (e : lockEvent) : string :=
  match e with LockRead n | LockWrite n => n end.

Section Engine.

(** The content identifier the remote node computes for a block. *)
Variable cid_of : Block -> string.

(** The [isTest] flag of the package. *)
Variable isTest : bool.

(** *** The DAG client and the internal functions of the ledger store *)

(** Modelled from the spec: the DAG client's save (section 4.1,
    [saveBytes], [saveRecord]) is declared in another file of the
    package. It stores the block under its CID and returns the CID;
    equal blocks get equal CIDs. Transport failures are not modelled. *)
Definition ipfsSave (blk : Block) : M string :=
  fun ls => (Ok (cid_of blk), set_dag (insert (cid_of blk) blk) ls).

(** Modelled from the spec: the DAG client's load (section 4.1,
    [loadBytes]) is declared in another file of the package. It fails
    with NotFound when the node has no such block and with CIDMismatch
    when the CID recomputed from the block differs from the one asked
    for. *)
Definition ipfsLoad (c : string) : M Block :=
  fun ls =>
    match dag ls !! c with
    | None => (Err ErrNotFound, ls)
    | Some blk =>
        if decide (cid_of blk = c) then (Ok blk, ls) else (Err ErrCIDMismatch, ls)
    end.

(** [stored d c blk]: the block [blk] is in the DAG store [d] under
    [c], which is its CID; a load of [c] answers [blk]. *)
Definition stored (d : gmap string Block) (c : string) (blk : Block) : Prop :=
  d !! c = Some blk /\ cid_of blk = c.

(** Modelled from the spec: [ipfsSaveBytes] is [saveBytes] of section
    4.1. *)
Definition ipfsSaveBytes (data : list byte) : M string := ipfsSave (RawBlock data).

(** Modelled from the spec: [loadBytes] of section 4.1 on a data hash; a
    block that is a record and not raw bytes is reported as Corrupt. *)
Definition ipfsBytes (c : string) : M (list byte) :=
  do blk <- ipfsLoad c;
  match blk with
  | RawBlock data => ret data
  | _ => throw ErrCorrupt
  end.

(** Modelled from the spec: [loadRecord] of section 4.1 at an object
    record. *)
Definition ipfsObject (c : string) : M Object :=
  do blk <- ipfsLoad c;
  match blk with
  | ObjectBlock obj => ret obj
  | _ => throw ErrCorrupt
  end.

(** Modelled from the spec: [loadRecord] of section 4.1 at a bucket
    record. *)
Definition ipfsBucket (c : string) : M BucketRecord :=
  do blk <- ipfsLoad c;
  match blk with
  | BucketBlock b => ret b
  | _ => throw ErrCorrupt
  end.

(** Modelled from the spec: [ledgerStore.bucketExists] is declared in
    another file of the package; a bucket exists when the local index
    has its key (section 4.5, CreateBucket). *)
Definition bucketExists (bucket : string) : M bool :=
  fun ls => (Ok (bool_decide (is_Some (ds ls !! bucket))), ls).

(** Modelled from the spec: [ledgerStore.assertBucketExits] is declared
    in another file of the package (section 7: BucketNotFound when there
    is no key for the bucket). *)
Definition assertBucketExits (bucket : string) : M unit :=
  do ex <- bucketExists bucket;
  if ex : bool then ret tt else throw ErrLedgerBucketDoesNotExist.

(** Modelled from the spec: [ledgerStore.getBucketLoaded] is declared in
    another file of the package. Section 4.4: the cached record when
    there is one; on first access the CID is read from the local index,
    the record is loaded from the DAG store and installed in the
    cache. *)
Definition getBucketLoaded (bucket : string) : M BucketRecord :=
  fun ls =>
    match cache ls !! bucket with
    | Some b => (Ok b, ls)
    | None =>
        match ds ls !! bucket with
        | None => (Err ErrLedgerBucketDoesNotExist, ls)
        | Some c =>
            match ipfsBucket c ls with
            | (Ok b, ls') => (Ok b, set_cache (insert bucket b) ls')
            | other => other
            end
        end
    end.

(** Modelled from the spec: [ledgerStore.object] is declared in another
    file of the package. Section 4.5, GetObject: load the bucket record,
    fail with ObjectNotFound when [objects] lacks the name, load the
    object record. The Go function returns a pointer, which its callers
    test for nil. *)
Definition object (bucket name : string) : M (option Object) :=
  do b <- getBucketLoaded bucket;
  match Objects b !! name with
  | None => throw ErrLedgerObjectDoesNotExist
  | Some c => do obj <- ipfsObject c; ret (Some obj)
  end.

(** Modelled from the spec: [ledgerStore.putObject] is declared in
    another file of the package. Section 4.5, PutObject: save the object
    record, set [objects[object]] in a copy of the bucket record, save
    the new bucket record, put its CID in the local index, replace the
    cache entry. *)
Definition putObject (bucket name : string) (obj : Object) : M unit :=
  do b <- getBucketLoaded bucket;
  do objCID <- ipfsSave (ObjectBlock obj);
  let newBucket :=
    mkBucketRecord (b_Name b) (b_Created b) (b_Location b)
      (<[name := objCID]> (Objects b)) in
  do bucketCID <- ipfsSave (BucketBlock newBucket);
  fun ls =>
    (Ok tt, set_cache (insert bucket newBucket) (set_ds (insert bucket bucketCID) ls)).

(** Modelled from the spec: the public [ledgerStore.PutObject] takes the
    bucket's write lock around the internal function. *)
Definition ls_PutObject (bucket name : string) (obj : Object) : M unit :=
  putObject bucket name obj.

(** Modelled from the spec: the public [ledgerStore.AssertBucketExits]
    is the internal function under the bucket's lock. *)
Definition AssertBucketExits (bucket : string) : M unit := assertBucketExits bucket.

(** Modelled from the spec: [ledgerStore.ObjectData] is declared in
    another file of the package. Section 4.5, GetObject: the object
    record, then the bytes at its [dataHash]. *)
Definition ObjectData (bucket name : string) : M (list byte) :=
  do o <- object bucket name;
  match o with
  | Some obj => ipfsBytes (DataHash obj)
  | None => throw ErrLedgerObjectDoesNotExist
  end.

(** Modelled from the spec: [ledgerStore.ObjectInfo] is declared in
    another file of the package (section 4.5, GetObjectInfo: as
    GetObject without the data). *)
Definition ls_ObjectInfo (bucket name : string) : M ObjectInfo :=
  do o <- object bucket name;
  match o with
  | Some obj => ret (ObjectInfo_ obj)
  | None => throw ErrLedgerObjectDoesNotExist
  end.

(** The generated getter [obj.GetObjectInfo()]: the zero value on a nil
    pointer. *)
Definition GetObjectInfo_ (o : option Object) : ObjectInfo :=
  match o with
  | Some obj => ObjectInfo_ obj
  | None => zeroObjectInfo
  end.

(** *** [ledgerStore.GetObjectInfos] and the listings *)

(** The test of the loop over the bucket's objects. *)
Definition keepName (prefix startsFrom name : string) : bool :=
  strings_HasPrefix name prefix && (strings_Compare startsFrom name >=? 0).

(** The names [GetObjectInfos] selects: the loop over the map, the sort
    and the cut at [max]. The map is iterated in an unspecified order;
    the sort makes the result independent of it. *)
Definition selectNames (objs : gmap string string) (prefix startsFrom : string)
  (max : Z) : list string :=
  let names := List.filter (keepName prefix startsFrom) (map fst (map_to_list objs)) in
  let names := sort_Strings names in
  if (max >? 0) && (len names >? max) then take (Z.to_nat max) names else names.

Fixpoint loadInfos (bucket : string) (names : list string) : M (list ObjectInfo) :=
  match names with
  | [] => ret []
  | name :: rest =>
      do obj <- object bucket name;
      do list <- loadInfos bucket rest;
      ret (GetObjectInfo_ obj :: list)
  end.

Definition GetObjectInfos (bucket prefix startsFrom : string) (max : Z)
  : M (list ObjectInfo) :=
  do b <- getBucketLoaded bucket;
  loadInfos bucket (selectNames (Objects b) prefix startsFrom max).

(** [GetObjectHashes]: the map of object names to the CIDs of their
    records, under the bucket's read lock. *)
Definition GetObjectHashes (bucket : string) : M (gmap string string) :=
  do b <- getBucketLoaded bucket;
  ret (Objects b).

Definition GetObjectHash (bucket name : string) : M string :=
  do objs <- GetObjectHashes bucket;
  match objs !! name with
  | Some h => ret h
  | None => throw ErrLedgerObjectDoesNotExist
  end.

Definition ListObjects (bucket prefix marker delimiter : string) (maxKeys : Z)
  : M (list ObjectInfo) :=
  convertErr (GetObjectInfos bucket prefix "" 0).

Definition ListObjectsV2 (bucket prefix continuationToken delimiter : string)
  (maxKeys : Z) (fetchOwner : bool) (startAfter : string) : M (list ObjectInfo) :=
  convertErr (GetObjectInfos bucket prefix startAfter 1000).

(** *** The S3 object operations *)

(** [GetObject]: the bytes written to [writer]. *)
Definition GetObject (bucket name : string) (startOffset length : Z)
  : M (list byte) :=
  do objData <- convertErr (ObjectData bucket name);
  let end_ := int64_add startOffset length in
  let objSize := len objData in
  if objSize <? end_ then
    throw (InvalidRange startOffset end_ objSize)
  else
    match slice objData startOffset end_ with
    | Some written => ret written
    | None => crash (SliceBounds startOffset end_)
    end.

Definition GetObjectInfo (bucket name : string) : M ObjectInfo :=
  convertErr (ls_ObjectInfo bucket name).

Definition newObjectInfo (bucket name : string) (size : Z)
  (UserDefined : list (string * string)) (now : Z) : ObjectInfo :=
  let obinfo := mkObjectInfo bucket name 0 size "" "" "" "" in
  let obinfo :=
    if negb isTest then
      mkObjectInfo (Bucket obinfo) (Name obinfo) now (Size_ obinfo)
        (ContentEncoding obinfo) (ContentDisposition obinfo)
        (ContentLanguage obinfo) (ContentType obinfo)
    else obinfo in
  applyUserDefined obinfo UserDefined.

(** [PutObject]: [data] is what [ioutil.ReadAll] reads from the request,
    [now] the reading of the clock. *)
Definition PutObject (bucket name : string) (data : list byte)
  (UserDefined : list (string * string)) (now : Z) : M ObjectInfo :=
  do _ <- convertErr (AssertBucketExits bucket);
  let obinfo := newObjectInfo bucket name (len data) UserDefined now in
  do dataHash <- convertErr (ipfsSaveBytes data);
  do _ <- convertErr (ls_PutObject bucket name (mkObject dataHash obinfo));
  ret obinfo.

(** The locks [CopyObject] takes before anything else, in the order it
    takes them: each [defer locker.read(b)()] acquires at once and
    releases at return. *)
Definition CopyObject_locks (srcBucket dstBucket : string) : list lockEvent :=
  if String.eqb srcBucket dstBucket then
    [LockWrite dstBucket]
  else if strings_Compare srcBucket dstBucket >? 0 then
    [LockRead srcBucket; LockWrite dstBucket]
  else
    [LockWrite dstBucket; LockRead srcBucket].

(** [CopyObject] under its locks. *)
Definition CopyObject (srcBucket srcObject dstBucket dstObject : string) (now : Z)
  : M ObjectInfo :=
  do _ <- convertErr (assertBucketExits dstBucket);
  do obj1 <- convertErr (object srcBucket srcObject);
  match obj1 with
  | None => throw (toMinioErr ErrLedgerObjectDoesNotExist)
  | Some obj1 =>
      (* Marshal then Unmarshal: a copy of the record *)
      let obj := mkObject (DataHash obj1) (ObjectInfo_ obj1) in
      let info := ObjectInfo_ obj in
      let info :=
        mkObjectInfo dstBucket dstObject now (Size_ info)
          (ContentEncoding info) (ContentDisposition info)
          (ContentLanguage info) (ContentType info) in
      let obj := mkObject (DataHash obj) info in
      do _ <- convertErr (putObject dstBucket dstObject obj);
      ret (ObjectInfo_ obj)
  end.

(** *** Multipart uploads *)

(** [Ledger.multipartExists]: the field [Id] is read through the
    pointer the map lookup yields. *)
Definition multipartExists (m : Ledger) (id : string) : result unit :=
  match MultipartUploads m with
  | None => Err ErrInvalidUploadID
  | Some uploads =>
      match uploads !! id with
      | None => Fault NilDereference
      | Some upload =>
          if String.eqb (Id upload) "" then Err ErrInvalidUploadID else Ok tt
      end
  end.

(** [Ledger.deleteMultipartID]: [delete] on a nil map does nothing. *)
Definition deleteMultipartID (bucketName multipartID : string) (m : Ledger) : Ledger :=
  mkLedger (delete multipartID <$> MultipartUploads m).

(** A read of the in-memory ledger [ls.l]. *)
Definition liftLedger {A} (f : Ledger -> result A) : M A :=
  fun ls => (f (l ls), ls).

(** [AbortMultipartUpload]: the bucket, then the id, then the delete. *)
Definition AbortMultipartUpload (bucket multipartID : string) : M unit :=
  do ex <- bucketExists bucket;
  if negb ex then throw ErrLedgerBucketDoesNotExist
  else
    do _ <- liftLedger (fun m => multipartExists m multipartID);
    fun ls => (Ok tt, set_l (deleteMultipartID bucket multipartID (l ls)) ls).

(** [NewMultipartUpload]: the map is allocated when nil, and the upload
    stored is [&MultipartUpload{ObjectInfo: info, Id: multipartID}], whose
    [ObjectParts] is the nil map. *)
Definition NewMultipartUpload (multipartID : string) (info : ObjectInfo) : M unit :=
  let bucket := Bucket info in
  do _ <- assertBucketExits bucket;
  fun ls =>
    let uploads := default ∅ (MultipartUploads (l ls)) in
    (Ok tt,
     set_l (mkLedger (Some (<[multipartID := mkMultipartUpload info multipartID None]>
                              uploads))) ls).

(** [PutObjectPart]: the comma-ok lookup of the id, then the write
    [mpart.ObjectParts[partHash] = ...] through the pointer found. *)
Definition PutObjectPart (bucketName objectName partHash multipartID : string)
  (partNumber : Z) : M unit :=
  do _ <- assertBucketExits bucketName;
  fun ls =>
    match uploadAt (l ls) multipartID with
    | None => (Err ErrInvalidUploadID, ls)
    | Some mpart =>
        match ObjectParts mpart with
        | None => (Fault NilMapWrite, ls)
        | Some parts =>
            let mpart' :=
              mkMultipartUpload (mu_ObjectInfo mpart) (Id mpart)
                (Some (<[partHash := mkObjectPartInfo partNumber partHash]> parts)) in
            (Ok tt,
             set_l (mkLedger (insert multipartID mpart' <$> MultipartUploads (l ls))) ls)
        end
    end.

(** [GetObjectParts]: the parts map of the upload, after the check of
    the id. *)
Definition GetObjectParts (id : string)
  : M (option (gmap string ObjectPartInfo)) :=
  do _ <- liftLedger (fun m => multipartExists m id);
  fun ls =>
    match uploadAt (l ls) id with
    | Some upload => (Ok (ObjectParts upload), ls)
    | None => (Fault NilDereference, ls)
    end.

(** [MultipartIDExists]. *)
Definition MultipartIDExists (id : string) : M unit :=
  liftLedger (fun m => multipartExists m id).

(** The stores reached from one whose uploads map was never allocated:
    by the three setters of the multipart registry, and by any other
    operation, none of which writes the in-memory ledger. *)
Inductive uploadStep : ledgerStore -> ledgerStore -> Prop :=
  | uploadStep_New multipartID info ls :
      uploadStep ls (snd (NewMultipartUpload multipartID info ls))
  | uploadStep_Put bucketName objectName partHash multipartID partNumber ls :
      uploadStep ls
        (snd (PutObjectPart bucketName objectName partHash multipartID partNumber ls))
  | uploadStep_Abort bucket multipartID ls :
      uploadStep ls (snd (AbortMultipartUpload bucket multipartID ls))
  | uploadStep_other ls ls' :
      l ls' = l ls -> uploadStep ls ls'.

Inductive uploadsReachable : ledgerStore -> Prop :=
  | uploadsReachable_new ls :
      MultipartUploads (l ls) = None -> uploadsReachable ls
  | uploadsReachable_step ls ls' :
      uploadsReachable ls -> uploadStep ls ls' -> uploadsReachable ls'.

(** Every upload of the registry is stored under its own id and has the
    nil parts map. *)
Definition uploadsFresh (m : Ledger) : Prop :=
  forall uploads id upload,
    MultipartUploads m = Some uploads -> uploads !! id = Some upload ->
    Id upload = id /\ ObjectParts upload = None.

End Engine.

End V2.

(** ** The CRDT DAG syncer *)

Module DagSyncer.

Section Syncer.

(** [cid.Cid], [ipld.Node] and the datastore behind the syncer. *)
Variable Cid : Type.
Context `{EqDecision Cid}.
Variable Node : Type.
Variable Datastore : Type.

(** [d.client.Dag] with a DAG_GET request: the error of the call, or the
    raw data of the response. *)
Variable Dag : Cid -> error + list byte.

(** [blocks.NewBlock(data).Cid()]: the CID recomputed from the bytes. *)
Variable blockCid : list byte -> Cid.

(** [ipld.Decode]: an error and a nil node, or the node. *)
Variable Decode : list byte -> error + Node.

(** [d.ds.Put(key, nil)]. *)
Variable dsPut : Cid -> Datastore -> option error * Datastore.

(** [setBlock c errs...]: the combined input error when there is one,
    the result of the Put otherwise. *)
Definition setBlock (c : Cid) (errs : option error) (store : Datastore)
  : option error * Datastore :=
  match errs with
  | Some err => (Some err, store)
  | None => dsPut c store
  end.

(** [Get]: the pair [(ipld.Node, error)] it returns, a nil node being
    [None], and the datastore afterwards. *)
Definition Get (c : Cid) (store : Datastore)
  : (option Node * option error) * Datastore :=
  match Dag c with
  | inl err => ((None, Some err), store)
  | inr RawData =>
      if decide (blockCid RawData = c) then
        match Decode RawData with
        | inr n =>
            let '(err, store') := setBlock c None store in
            ((Some n, err), store')
        | inl e =>
            let '(err, store') := setBlock c (Some e) store in
            ((None, err), store')
        end
      else ((None, Some ErrUnexpectedData), store)
  end.

(** [d.ds.Delete(key)] and [d.ds.Has(key)]. *)
Variable dsDelete : Cid -> Datastore -> option error * Datastore.
Variable dsHas : Cid -> Datastore -> error + bool.

(** [n.Cid()], the type switch of AddMany ([true] for a
    [*merkledag.ProtoNode]), [ipfsSaveProtoNode], declared in another
    file of the package, as the error it returns, and
    [errors.WithMessage]. *)
Variable nodeCid : Node -> Cid.
Variable isProtoNode : Node -> bool.
Variable ipfsSaveProtoNode : Node -> option error.
Variable WithMessage : error -> string -> error.

(** [GetMany]: the node options the goroutine sends to the channel, one
    per CID and in the order of the CIDs, and the datastore when the
    channel is closed. *)
Fixpoint GetMany (cs : list Cid) (store : Datastore)
  : list (option Node * option error) * Datastore :=
  match cs with
  | [] => ([], store)
  | c :: rest =>
      let '(out, store') := Get c store in
      let '(outs, store'') := GetMany rest store' in
      (out :: outs, store'')
  end.

(** [AddMany]: stops at the first node it cannot add. *)
Fixpoint AddMany (ns : list Node) (store : Datastore) : option error * Datastore :=
  match ns with
  | [] => (None, store)
  | n :: rest =>
      if isProtoNode n then
        match ipfsSaveProtoNode n with
        | Some err => (Some (WithMessage err "error decoding returned cid"), store)
        | None =>
            match setBlock (nodeCid n) None store with
            | (Some err, store') => (Some err, store')
            | (None, store') => AddMany rest store'
            end
        end
      else (Some (ErrOther "Can not add type using dag client"), store)
  end.

Definition Add (n : Node) (store : Datastore) : option error * Datastore :=
  AddMany [n] store.

(** [RemoveMany]: stops at the first Delete that fails. *)
Fixpoint RemoveMany (cs : list Cid) (store : Datastore) : option error * Datastore :=
  match cs with
  | [] => (None, store)
  | c :: rest =>
      match dsDelete c store with
      | (Some err, store') => (Some err, store')
      | (None, store') => RemoveMany rest store'
      end
  end.

Definition Remove (c : Cid) (store : Datastore) : option error * Datastore :=
  RemoveMany [c] store.

Definition HasBlock (c : Cid) (store : Datastore) : error + bool := dsHas c store.

End Syncer.

End DagSyncer.

(** ** A content identifier without collisions *)

(** The identity multihash: the CID of a block is a canonical
    serialisation of the block itself. Strings are written with a
    continuation mark before each character, so that every field ends
    where its mark says. *)
Module IdentityCid.

Import V2.

Fixpoint esc (a rest : string) : string :=
  match a with
  | EmptyString => String "0" rest
  | String c a' => String "1" (String c (esc a' rest))
  end.

Definition ser_Z (z : Z) (rest : string) : string := esc (pretty z) rest.

Definition ser_info (i : ObjectInfo) (rest : string) : string :=
  esc (Bucket i) (esc (Name i) (ser_Z (ModTime i) (ser_Z (Size_ i)
    (esc (ContentEncoding i) (esc (ContentDisposition i)
      (esc (ContentLanguage i) (esc (ContentType i) rest))))))).

Fixpoint ser_objs (objs : list (string * string)) : string :=
  match objs with
  | [] => "0"
  | (k, v) :: objs' => String "1" (esc k (esc v (ser_objs objs')))
  end.

Definition identityCid (blk : Block) : string :=
  match blk with
  | RawBlock data => String "r" (string_of_list_byte data)
  | ObjectBlock obj => String "o" (esc (DataHash obj) (ser_info (ObjectInfo_ obj) ""))
  | BucketBlock b =>
      String "b" (esc (b_Name b) (ser_Z (b_Created b) (esc (b_Location b)
        (ser_objs (map_to_list (Objects b))))))
  end.

End IdentityCid.

(** ** Concrete stores for the scenarios of the specification *)

Module Scenario.

Import V2 IdentityCid.

Definition emptyBucket (name : string) : BucketRecord :=
  mkBucketRecord name 0 "us-east-1" ∅.

(** The store after the creation of the buckets "b1" and "b2" (section
    4.5, CreateBucket: the record is saved, its CID put in the local
    index and the record installed in the cache). *)
Definition created : ledgerStore :=
  mkLedgerStore
    (<["b1" := identityCid (BucketBlock (emptyBucket "b1"))]>
       (<["b2" := identityCid (BucketBlock (emptyBucket "b2"))]> ∅))
    (<[identityCid (BucketBlock (emptyBucket "b1")) := BucketBlock (emptyBucket "b1")]>
       (<[identityCid (BucketBlock (emptyBucket "b2")) := BucketBlock (emptyBucket "b2")]> ∅))
    (<["b1" := emptyBucket "b1"]> (<["b2" := emptyBucket "b2"]> ∅))
    (mkLedger None).

(** The bytes of "hello". *)
Definition hello : list byte := [x68; x65; x6c; x6c; x6f].

(** [run m ls]: the store after the call. *)
Definition run {A} (m : M A) (ls : ledgerStore) : ledgerStore := snd (m ls).

(** Scenario S3: "hello" is put under "k" in "b1". *)
Definition withK : ledgerStore :=
  run (PutObject identityCid true "b1" "k" hello [] 0) created.

(** A bucket "b1" holding the single object "a". *)
Definition withA : ledgerStore :=
  run (PutObject identityCid true "b1" "a" [x41] [] 0) created.

(** The first ledger after NewBucket "b1" and AddObjectToBucket "k". *)
Definition seeded : V1.LedgerStore :=
  snd (V1.AddObjectToBucket "b1" "k" "QmObject"
         (snd (V1.NewBucket "b1" "QmBucket" V1.newLedgerStore))).

(** "k" of "b1" is copied onto itself at time 7. *)
Definition copiedOntoItself : ledgerStore :=
  run (CopyObject identityCid "b1" "k" "b1" "k" 7) withK.

(** "k" of "b1" is copied to "y" of "b2" at time 7. *)
Definition copiedAcross : ledgerStore :=
  run (CopyObject identityCid "b1" "k" "b2" "y" 7) withK.

(** Stand-ins for the helpers of the first gateway that talk to the
    remote node, over a node without state: every call succeeds. *)
Definition okObjectToIPFS (_ : V1.Object) (n : unit) : result string * unit :=
  (Ok "QmObject", n).

Definition okAddObjectToBucketAndIPFS (_ _ _ : string) (_ : V1.LedgerStore) (n : unit)
  : result string * unit :=
  (Ok "QmBucket2", n).

Definition okObjectFromBucket (b o : string) (_ : V1.LedgerStore) (_ : unit)
  : result V1.Object :=
  Ok (V1.mkObject hello (mkObjectInfo b o 0 5 "" "" "" "")).

Definition okGetMinioObjectInfo (b o : string) (_ : V1.LedgerStore) (_ : unit)
  : result ObjectInfo :=
  Ok (mkObjectInfo b o 0 5 "" "" "" "").

(** The first gateway over [seeded], and after a PutObject of the empty
    object name into "b1". *)
Definition gateway1 : V1.xObjects unit := V1.mkxObjects unit seeded tt.

Definition gateway1_put : result ObjectInfo * V1.xObjects unit :=
  V1.PutObject unit okObjectToIPFS okAddObjectToBucketAndIPFS okGetMinioObjectInfo
    "b1" "" hello [] 0 gateway1.

(** The first ledger after NewBucket of the empty name. *)
Definition emptyNamed : V1.LedgerStore :=
  snd (V1.NewBucket "" "QmEmpty" V1.newLedgerStore).

(** A remote node that answers every DAG_GET with the bytes of "hello",
    CIDs that are the bytes themselves, nodes that are their bytes, and
    a datastore that is the list of the CIDs seen. *)
Definition helloDag (_ : string) : error + list byte := inr hello.

Definition rawCid (data : list byte) : string := string_of_list_byte data.

Definition rawDecode (data : list byte) : error + list byte := inr data.

Definition seenPut (c : string) (seen : list string) : option error * list string :=
  (None, c :: seen).




(** The rest of that datastore, and nodes that are all proto nodes and
    are always saved. *)
Definition seenDelete (c : string) (seen : list string) : option error * list string :=
  (None, List.filter (fun c' => negb (String.eqb c' c)) seen).

Definition seenHas (c : string) (seen : list string) : error + bool :=
  inr (bool_decide (c ∈ seen)).

Definition allProto (_ : list byte) : bool := true.

Definition savedOk (_ : list byte) : option error := None.

Definition keepCause (err : error) (_ : string) : error := err.

(** Scenario S7: an upload "id1" of "big" into "b1" is initiated, and
    then aborted. *)
Definition uploading : ledgerStore :=
  run (NewMultipartUpload "id1" (mkObjectInfo "b1" "big" 0 0 "" "" "" "")) created.

Definition aborted : ledgerStore :=
  run (AbortMultipartUpload "b1" "id1") uploading.

End Scenario.

(** * Properties *)

(** ** The order on Go strings *)

Lemma ascii_compare_refl (c : ascii) : Ascii.compare c c = Eq.
Proof. unfold Ascii.compare. apply N.compare_refl. Qed.

Lemma ascii_compare_eq (c d : ascii) : Ascii.compare c d = Eq -> c = d.
Proof.
  unfold Ascii.compare. intros H%N.compare_eq.
  rewrite <- (ascii_N_embedding c), <- (ascii_N_embedding d). by rewrite H.
Qed.

Lemma ascii_compare_lt_trans (c d e : ascii) :
  Ascii.compare c d = Lt -> Ascii.compare d e = Lt -> Ascii.compare c e = Lt.
Proof.
  unfold Ascii.compare. rewrite !N.compare_lt_iff. lia.
Qed.

Lemma string_compare_refl (s : string) : String.compare s s = Eq.
Proof.
  induction s as [|c s IH]; simpl; [done|]. by rewrite ascii_compare_refl.
Qed.

Lemma string_lt_trans (a b c : string) :
  string_lt a b -> string_lt b c -> string_lt a c.
Proof.
  unfold string_lt. revert b c.
  induction a as [|x a IH]; intros [|y b] [|z c]; simpl; try done.
  destruct (Ascii.compare x y) eqn:Hxy; try done.
  - apply ascii_compare_eq in Hxy as ->.
    destruct (Ascii.compare y z) eqn:Hyz; try done. apply IH.
  - destruct (Ascii.compare y z) eqn:Hyz; try done.
    + apply ascii_compare_eq in Hyz as <-. by rewrite Hxy.
    + by rewrite (ascii_compare_lt_trans _ _ _ Hxy Hyz).
Qed.

Lemma string_lt_irrefl (a : string) : ~ string_lt a a.
Proof. unfold string_lt. by rewrite string_compare_refl. Qed.

Lemma string_le_lt_or_eq (a b : string) : string_le a b <-> string_lt a b \/ a = b.
Proof.
  unfold string_le, string_lt, String.leb. split.
  - destruct (String.compare a b) eqn:E; try done; [right|by left].
    by apply String.compare_eq_iff.
  - intros [->| ->]; [done|]. by rewrite string_compare_refl.
Qed.

Lemma string_le_trans (a b c : string) :
  string_le a b -> string_le b c -> string_le a c.
Proof.
  rewrite !string_le_lt_or_eq. intros [H1| ->] [H2| ->]; eauto using string_lt_trans.
Qed.

Lemma string_le_total (a b : string) : string_le a b \/ string_le b a.
Proof. apply String.leb_total. Qed.

#[local] Instance string_le_Transitive : Transitive string_le.
Proof. exact string_le_trans. Qed.

#[local] Instance string_le_Total : Total string_le.
Proof. exact string_le_total. Qed.

(** [strings.Compare a b > 0] says that [b] comes before [a]. *)
Lemma strings_Compare_gt (a b : string) :
  (strings_Compare a b >? 0) = true <-> string_lt b a.
Proof.
  unfold strings_Compare, string_lt. rewrite (String.compare_antisym a b).
  destruct (String.compare b a); simpl; split; (done || lia).
Qed.

(** [strings.Compare a b >= 0] says that [b] does not come after [a]. *)
Lemma strings_Compare_ge (a b : string) :
  (strings_Compare a b >=? 0) = true <-> string_le b a.
Proof.
  unfold strings_Compare, string_le, String.leb.
  rewrite (String.compare_antisym a b).
  destruct (String.compare b a); simpl; split; (done || lia).
Qed.

Lemma strings_Compare_trichotomy (a b : string) :
  a <> b -> string_lt a b \/ string_lt b a.
Proof.
  intros Hne. unfold string_lt. rewrite (String.compare_antisym a b).
  destruct (String.compare b a) eqn:E; simpl; auto.
  by apply String.compare_eq_iff in E.
Qed.

(** ** The lock order of CopyObject *)

Lemma String_eqb_false_iff (a b : string) : String.eqb a b = false <-> a <> b.
Proof.
  destruct (String.eqb_spec a b); split; (done || congruence).
Qed.

(** C4, as the specification states it, fails: copying from bucket "a"
    to bucket "b" takes the write lock on "b" first and the read lock on
    "a" second, which is not the ascending order of the names. *)
Lemma CopyObject_locks_not_ascending :
  V2.CopyObject_locks "a" "b" = [V2.LockWrite "b"; V2.LockRead "a"] /\
  ~ Sorted string_lt (map V2.lockName (V2.CopyObject_locks "a" "b")).
Proof.
  split; [reflexivity|].
  intros H. simpl in H. inversion H as [|x l _ Hd]; subst.
  inversion Hd as [|y l' Hlt]; subst. discriminate Hlt.
Qed.

(** C4, amended: for distinct bucket names CopyObject takes exactly two
    locks, the read lock on the source and the write lock on the
    destination, the lock of the greater name first (descending order of
    bucket name), whichever of the two is the source; for equal names it
    takes one lock, the write lock on the destination. *)
Theorem CopyObject_locks_descending (srcBucket dstBucket : string) :
  (srcBucket <> dstBucket ->
     exists e1 e2,
       V2.CopyObject_locks srcBucket dstBucket = [e1; e2] /\
       string_lt (V2.lockName e2) (V2.lockName e1) /\
       ((e1 = V2.LockRead srcBucket /\ e2 = V2.LockWrite dstBucket) \/
        (e1 = V2.LockWrite dstBucket /\ e2 = V2.LockRead srcBucket))) /\
  (srcBucket = dstBucket ->
     V2.CopyObject_locks srcBucket dstBucket = [V2.LockWrite dstBucket]).
Proof.
  unfold V2.CopyObject_locks. split.
  - intros Hne. rewrite (proj2 (String_eqb_false_iff _ _) Hne).
    destruct (strings_Compare srcBucket dstBucket >? 0) eqn:Hc.
    + apply strings_Compare_gt in Hc.
      exists (V2.LockRead srcBucket), (V2.LockWrite dstBucket). simpl. auto.
    + exists (V2.LockWrite dstBucket), (V2.LockRead srcBucket). simpl.
      split; [done|]. split; [|auto].
      destruct (strings_Compare_trichotomy _ _ Hne) as [Hlt|Hgt]; [done|].
      apply strings_Compare_gt in Hgt. congruence.
  - intros ->. by rewrite String.eqb_refl.
Qed.

Lemma CopyObject_locks_descending_witness :
  ("b1" <> "b2" /\
   V2.CopyObject_locks "b1" "b2" = [V2.LockWrite "b2"; V2.LockRead "b1"] /\
   V2.CopyObject_locks "b2" "b1" = [V2.LockRead "b2"; V2.LockWrite "b1"]) /\
  (exists e1 e2,
     V2.CopyObject_locks "b1" "b2" = [e1; e2] /\
     string_lt (V2.lockName e2) (V2.lockName e1) /\
     ((e1 = V2.LockRead "b1" /\ e2 = V2.LockWrite "b2") \/
      (e1 = V2.LockWrite "b2" /\ e2 = V2.LockRead "b1"))) /\
  V2.CopyObject_locks "b1" "b1" = [V2.LockWrite "b1"].
Proof.
  split; [split; [discriminate|split; reflexivity]|].
  split.
  - apply (proj1 (CopyObject_locks_descending "b1" "b2")). discriminate.
  - apply (proj2 (CopyObject_locks_descending "b1" "b1")). reflexivity.
Defined.

(** ** The names GetObjectInfos selects *)

Section SelectNames.

Import V2.

Variables (objs : gmap string string) (prefix startsFrom : string) (max : Z).

Lemma StronglySorted_take {A} (R : relation A) (n : nat) (xs : list A) :
  StronglySorted R xs -> StronglySorted R (take n xs).
Proof.
  intros Hs. revert n. induction Hs as [|x xs Hs IH Hall]; intros [|n]; simpl;
    try constructor; auto.
  apply Forall_take. exact Hall.
Qed.

Lemma StronglySorted_le_NoDup_lt (xs : list string) :
  StronglySorted string_le xs -> NoDup xs -> StronglySorted string_lt xs.
Proof.
  induction 1 as [|x xs Hs IH Hall]; intros Hnd; [constructor|].
  apply NoDup_cons in Hnd as [Hx Hnd]. constructor; [auto|].
  apply Forall_forall. intros y Hy.
  rewrite Forall_forall in Hall. specialize (Hall y Hy).
  apply string_le_lt_or_eq in Hall as [Hlt| ->]; [done|]. by destruct Hx.
Qed.

Lemma elem_of_selectNames (name : string) :
  name ∈ selectNames objs prefix startsFrom max ->
  is_Some (objs !! name) /\ keepName prefix startsFrom name = true.
Proof.
  unfold selectNames. intros Hin.
  assert (name ∈ sort_Strings
            (List.filter (keepName prefix startsFrom) (map fst (map_to_list objs))))
    as Hs.
  { destruct (_ && _) in Hin; [|done].
    apply list_elem_of_lookup in Hin as [i Hi].
    apply lookup_take_Some in Hi as [Hi _].
    by eapply list_elem_of_lookup_2. }
  unfold sort_Strings in Hs. rewrite merge_sort_Permutation in Hs.
  apply list_elem_of_In, filter_In in Hs as [Hk Hkeep]. split; [|done].
  apply in_map_iff in Hk as [[k v] [<- Hkv]].
  apply list_elem_of_In, elem_of_map_to_list in Hkv. eauto.
Qed.

(** The selected names are in strict ascending order. *)
Lemma selectNames_ascending :
  StronglySorted string_lt (selectNames objs prefix startsFrom max).
Proof.
  unfold selectNames.
  assert (StronglySorted string_lt
            (sort_Strings
               (List.filter (keepName prefix startsFrom) (map fst (map_to_list objs)))))
    as Hs.
  { apply StronglySorted_le_NoDup_lt.
    - apply StronglySorted_merge_sort; apply _.
    - unfold sort_Strings. rewrite merge_sort_Permutation.
      apply NoDup_ListNoDup, List.NoDup_filter, NoDup_ListNoDup.
      apply NoDup_fst_map_to_list. }
  destruct (_ && _); [|done]. by apply StronglySorted_take.
Qed.

(** Every selected name starts with the prefix. *)
Lemma selectNames_prefix (name : string) :
  name ∈ selectNames objs prefix startsFrom max ->
  strings_HasPrefix name prefix = true.
Proof.
  intros [_ Hk]%elem_of_selectNames. unfold keepName in Hk.
  by apply andb_true_iff in Hk as [? _].
Qed.

(** At most [max] names are selected when [max] is positive. *)
Lemma selectNames_max :
  0 < max -> len (selectNames objs prefix startsFrom max) <= max.
Proof.
  intros Hmax. unfold selectNames, len.
  destruct (max >? 0) eqn:H1; [|lia]. simpl.
  destruct (_ >? max) eqn:H2.
  - rewrite length_take. lia.
  - unfold len in H2. lia.
Qed.

(** Every selected name is at most [startsFrom]: the comparison of the
    loop keeps the names that do not come after it. *)
Lemma selectNames_le_startsFrom (name : string) :
  name ∈ selectNames objs prefix startsFrom max -> string_le name startsFrom.
Proof.
  intros [_ Hk]%elem_of_selectNames. unfold keepName in Hk.
  apply andb_true_iff in Hk as [_ Hk]. by apply strings_Compare_ge.
Qed.

End SelectNames.

(** ** Listing a bucket *)

(** C1, at a store the gateway reaches: the bucket "b1" holds the single
    object "a". Listing it with [startsFrom = "b"] returns "a", which
    does not come after "b": the loop of GetObjectInfos keeps the names
    with [strings.Compare(startsFrom, name) >= 0], those at or before
    [startsFrom]. ListObjectsV2 passes its [startAfter] there; and
    ListObjects, which passes the empty string, lists nothing of a
    bucket that holds an object. *)
Theorem GetObjectInfos_returns_name_before_startsFrom :
  (exists info,
     fst (V2.GetObjectInfos IdentityCid.identityCid "b1" "" "b" 0 Scenario.withA)
       = Ok [info] /\
     Name info = "a" /\ ~ string_lt "b" (Name info)) /\
  (exists info,
     fst (V2.ListObjectsV2 IdentityCid.identityCid "b1" "" "" "" 1000 false "b"
            Scenario.withA) = Ok [info] /\
     Name info = "a") /\
  fst (V2.ObjectData IdentityCid.identityCid "b1" "a" Scenario.withA) = Ok [x41] /\
  fst (V2.ListObjects IdentityCid.identityCid "b1" "" "" "" 0 Scenario.withA) = Ok [].
Proof.
  split; [|split; [|split]].
  - eexists. split; [vm_compute; reflexivity|]. split; [reflexivity|].
    vm_compute. discriminate.
  - eexists. split; [vm_compute; reflexivity|reflexivity].
  - vm_compute. reflexivity.
  - vm_compute. reflexivity.
Qed.

(** ** Ranges of GetObject *)

Lemma wrap64_small (z : Z) : in_int64 z -> wrap64 z = z.
Proof.
  unfold in_int64, wrap64. intros Hz.
  rewrite Z.mod_small; lia.
Qed.

(** For a range of non-negative offset and length whose end is
    representable, GetObject fails with InvalidRange exactly when the
    end exceeds the size, and otherwise writes the bytes from
    [startOffset] to [startOffset + length]. *)
Lemma GetObject_range_nonneg (cid_of : V2.Block -> string) (bucket name : string)
  (startOffset length : Z) (ls ls' : V2.ledgerStore) (objData : list byte) :
  V2.ObjectData cid_of bucket name ls = (Ok objData, ls') ->
  0 <= startOffset -> 0 <= length -> startOffset + length < 2 ^ 63 ->
  V2.GetObject cid_of bucket name startOffset length ls =
    if len objData <? startOffset + length then
      (Err (InvalidRange startOffset (startOffset + length) (len objData)), ls')
    else
      (Ok (take (Z.to_nat length) (drop (Z.to_nat startOffset) objData)), ls').
Proof.
  intros Hdata Hs Hl Hend.
  unfold V2.GetObject, V2.mbind, V2.convertErr. rewrite Hdata. simpl.
  unfold int64_add. rewrite wrap64_small by (unfold in_int64; lia).
  destruct (len objData <? startOffset + length) eqn:Hlt; [done|].
  unfold slice.
  assert (((0 <=? startOffset) && (startOffset <=? startOffset + length)
           && (startOffset + length <=? len objData)) = true) as ->.
  { rewrite !andb_true_iff, !Z.leb_le. apply Z.ltb_ge in Hlt. lia. }
  unfold V2.ret. do 3 f_equal. lia.
Qed.

(** C7, at a store the gateway reaches: "b1" holds "k" with the five
    bytes of "hello". The range check of GetObject compares the size
    with the wrapped sum only: the range that starts at the greatest
    offset with length 1 has a sum above the size, wraps to a negative
    end, passes the check and panics at the slice expression; so does
    the range of offset 0 and length -1. Neither call returns
    InvalidRange, neither writes bytes. *)
Theorem GetObject_range_check_misses :
  fst (V2.ObjectData IdentityCid.identityCid "b1" "k" Scenario.withK)
    = Ok Scenario.hello /\
  fst (V2.GetObject IdentityCid.identityCid "b1" "k" (2 ^ 63 - 1) 1 Scenario.withK)
    = Fault (SliceBounds (2 ^ 63 - 1) (- 2 ^ 63)) /\
  fst (V2.GetObject IdentityCid.identityCid "b1" "k" 0 (-1) Scenario.withK)
    = Fault (SliceBounds 0 (-1)) /\
  fst (V2.GetObject IdentityCid.identityCid "b1" "k" 3 (-1) Scenario.withK)
    = Fault (SliceBounds 3 2).
Proof. repeat split; vm_compute; reflexivity. Qed.

(** ** Deleting an object from the first ledger *)

(** RemoveObject never writes the ledger back: whatever it returns, the
    datastore is as it was. *)
Lemma RemoveObject_no_write (bucketName objectName : string) (le : V1.LedgerStore) :
  snd (V1.RemoveObject bucketName objectName le) = le.
Proof.
  unfold V1.RemoveObject.
  destruct (V1.getLedger le) as [ledger| |]; [|done|done].
  by destruct (V1.objectExists ledger bucketName objectName).
Qed.

(** A successful RemoveObject is followed by a successful ObjectExists
    of the same object. *)
Lemma RemoveObject_then_ObjectExists (bucketName objectName : string)
  (le : V1.LedgerStore) :
  fst (V1.RemoveObject bucketName objectName le) = Ok tt ->
  V1.ObjectExists bucketName objectName
    (snd (V1.RemoveObject bucketName objectName le)) = Ok tt.
Proof.
  rewrite RemoveObject_no_write. unfold V1.RemoveObject, V1.ObjectExists.
  destruct (V1.getLedger le) as [ledger| |]; simpl; [|done|done].
  by destruct (V1.objectExists ledger bucketName objectName) as [[]| |].
Qed.

(** C3, at a ledger the gateway reaches (bucket "b1" with the object
    "k"), for every remote node and every reader of objects:
    DeleteObject succeeds and leaves the gateway as it was, the object
    still exists for ObjectExists, and the following GetObject passes
    its existence check and answers what the reader of the object
    answers, as it did before the deletion. *)
Theorem DeleteObject_then_object_still_exists (ipfs : Type)
  (objectFromBucket : string -> string -> V1.LedgerStore -> ipfs -> result V1.Object)
  (node : ipfs) :
  let x := V1.mkxObjects ipfs Scenario.seeded node in
  let x' := snd (V1.DeleteObject ipfs "b1" "k" x) in
  fst (V1.DeleteObject ipfs "b1" "k" x) = Ok tt /\
  x' = x /\
  V1.ObjectExists "b1" "k" (V1.ledgerStore ipfs x') = Ok tt /\
  V1.GetObject ipfs objectFromBucket "b1" "k" x' =
    match objectFromBucket "b1" "k" Scenario.seeded node with
    | Ok obj => Ok (V1.Data obj)
    | Err e => Err (toMinioErr e)
    | Fault p => Fault p
    end.
Proof.
  intros x x'. subst x x'. repeat split.
Qed.

(** ** Multipart uploads *)

Section Multipart.

Import V2.

Lemma assertBucketExits_inv (bucket : string) (ls ls' : ledgerStore) :
  assertBucketExits bucket ls = (Ok tt, ls') ->
  ls' = ls /\ is_Some (ds ls !! bucket).
Proof.
  unfold assertBucketExits, bucketExists, mbind, ret, throw.
  case_bool_decide; [|done]. by intros [= <-].
Qed.

Lemma assertBucketExits_ok (bucket : string) (ls : ledgerStore) :
  is_Some (ds ls !! bucket) -> assertBucketExits bucket ls = (Ok tt, ls).
Proof.
  intros H. unfold assertBucketExits, bucketExists, mbind, ret.
  by rewrite bool_decide_true.
Qed.

(** multipartExists on a ledger whose map is allocated and lacks the id
    reads a field through the nil pointer. *)
Lemma multipartExists_absent (m : Ledger) (uploads : gmap string MultipartUpload)
  (id : string) :
  MultipartUploads m = Some uploads -> uploads !! id = None ->
  multipartExists m id = Fault NilDereference.
Proof. unfold multipartExists. by intros -> ->. Qed.

(** The upload NewMultipartUpload records has a nil parts map. *)
Lemma NewMultipartUpload_inv (id : string) (info : ObjectInfo) (ls ls' : ledgerStore) :
  NewMultipartUpload id info ls = (Ok tt, ls') ->
  ds ls' = ds ls /\ is_Some (ds ls !! Bucket info) /\
  uploadAt (l ls') id = Some (mkMultipartUpload info id None).
Proof.
  unfold NewMultipartUpload, mbind.
  destruct (assertBucketExits (Bucket info) ls) as [[[]| |] ls1] eqn:Ha; try done.
  apply assertBucketExits_inv in Ha as [-> Hb]. intros [= <-].
  split; [done|]. split; [done|]. unfold uploadAt. simpl. by rewrite lookup_insert_eq.
Qed.

(** PutObjectPart on the upload NewMultipartUpload has just recorded
    writes to its nil parts map and panics. *)
Lemma NewMultipartUpload_then_PutObjectPart (id objectName partHash : string)
  (info : ObjectInfo) (partNumber : Z) (ls ls' : ledgerStore) :
  NewMultipartUpload id info ls = (Ok tt, ls') ->
  fst (PutObjectPart (Bucket info) objectName partHash id partNumber ls')
    = Fault NilMapWrite.
Proof.
  intros (Hds & Hb & Hup)%NewMultipartUpload_inv.
  unfold PutObjectPart, mbind.
  rewrite assertBucketExits_ok by (by rewrite Hds). by rewrite Hup.
Qed.

Lemma AbortMultipartUpload_inv (bucket id : string) (ls ls' : ledgerStore) :
  AbortMultipartUpload bucket id ls = (Ok tt, ls') ->
  ds ls' = ds ls /\ is_Some (ds ls !! bucket) /\
  exists uploads,
    MultipartUploads (l ls) = Some uploads /\
    MultipartUploads (l ls') = Some (delete id uploads).
Proof.
  unfold AbortMultipartUpload, mbind, bucketExists, liftLedger, throw.
  case_bool_decide as Hb; simpl; [|done].
  destruct (multipartExists (l ls) id) as [[]| |] eqn:Hex; try done.
  intros [= <-]. split; [done|]. split; [done|].
  unfold multipartExists in Hex.
  destruct (MultipartUploads (l ls)) as [uploads|] eqn:Hu; [|done].
  exists uploads. split; [done|]. simpl. by rewrite Hu.
Qed.

(** After a successful abort, PutObjectPart with the id into the same
    bucket fails with the invalid-upload-id error. *)
Lemma AbortMultipartUpload_then_PutObjectPart (bucket id objectName partHash : string)
  (partNumber : Z) (ls ls' : ledgerStore) :
  AbortMultipartUpload bucket id ls = (Ok tt, ls') ->
  fst (PutObjectPart bucket objectName partHash id partNumber ls')
    = Err ErrInvalidUploadID.
Proof.
  intros (Hds & Hb & uploads & _ & Hu)%AbortMultipartUpload_inv.
  unfold PutObjectPart, mbind.
  rewrite assertBucketExits_ok by (by rewrite Hds).
  unfold uploadAt. rewrite Hu. by rewrite lookup_delete_eq.
Qed.

(** After a successful abort, the other multipart operations of the
    ledger store panic on the id. *)
Lemma AbortMultipartUpload_then_faults (bucket id : string) (ls ls' : ledgerStore) :
  AbortMultipartUpload bucket id ls = (Ok tt, ls') ->
  fst (MultipartIDExists id ls') = Fault NilDereference /\
  fst (GetObjectParts id ls') = Fault NilDereference /\
  fst (AbortMultipartUpload bucket id ls') = Fault NilDereference.
Proof.
  intros (Hds & Hb & uploads & _ & Hu)%AbortMultipartUpload_inv.
  assert (multipartExists (l ls') id = Fault NilDereference) as Hex.
  { eapply multipartExists_absent; [done|]. apply lookup_delete_eq. }
  unfold MultipartIDExists, GetObjectParts, AbortMultipartUpload, mbind,
    liftLedger, bucketExists.
  rewrite Hex. simpl. rewrite bool_decide_true by (by rewrite Hds).
  simpl. rewrite Hex. done.
Qed.

End Multipart.

(** C9, at a store the gateway reaches: after NewMultipartUpload of
    "id1" into the bucket "b1", PutObjectPart on "id1" panics on the
    write to the nil parts map and records nothing; and
    MultipartIDExists, GetObjectParts and AbortMultipartUpload with the
    id "other", absent from the non-empty uploads map, panic on the nil
    pointer the lookup yields and do not return the invalid-upload-id
    error. *)
Theorem multipart_operations_fault :
  fst (V2.NewMultipartUpload "id1" (mkObjectInfo "b1" "big" 0 0 "" "" "" "")
         Scenario.created) = Ok tt /\
  V2.uploadAt (V2.l Scenario.uploading) "id1"
    = Some (V2.mkMultipartUpload (mkObjectInfo "b1" "big" 0 0 "" "" "" "") "id1" None) /\
  V2.PutObjectPart "b1" "big" "QmPart" "id1" 1 Scenario.uploading
    = (Fault NilMapWrite, Scenario.uploading) /\
  V2.uploadAt (V2.l Scenario.uploading) "other" = None /\
  fst (V2.MultipartIDExists "other" Scenario.uploading) = Fault NilDereference /\
  fst (V2.GetObjectParts "other" Scenario.uploading) = Fault NilDereference /\
  fst (V2.AbortMultipartUpload "b1" "other" Scenario.uploading) = Fault NilDereference.
Proof. repeat split; vm_compute; reflexivity. Qed.

(** C6, at a store the gateway reaches: the upload "id1" into "b1" is
    aborted with success. PutObjectPart with the id then fails with the
    invalid-upload-id error; but MultipartIDExists, GetObjectParts and a
    second AbortMultipartUpload with the id panic on the nil pointer the
    lookup of the deleted id yields, and do not fail with that error. *)
Theorem aborted_upload_operations :
  fst (V2.AbortMultipartUpload "b1" "id1" Scenario.uploading) = Ok tt /\
  fst (V2.PutObjectPart "b1" "big" "QmPart" "id1" 1 Scenario.aborted)
    = Err ErrInvalidUploadID /\
  fst (V2.MultipartIDExists "id1" Scenario.aborted) = Fault NilDereference /\
  fst (V2.GetObjectParts "id1" Scenario.aborted) = Fault NilDereference /\
  fst (V2.AbortMultipartUpload "b1" "id1" Scenario.aborted) = Fault NilDereference.
Proof. repeat split; vm_compute; reflexivity. Qed.

(** ** Existence in the first ledger *)

Section FirstLedger.

Import V1.

Lemma bucketExists_true (ledger : Ledger) (name : string) :
  bucketExists ledger name = true <-> be_Name (bucketAt ledger name) <> "".
Proof.
  unfold bucketExists. rewrite negb_true_iff. apply String_eqb_false_iff.
Qed.

Lemma objectExists_ok (ledger : Ledger) (bucket object : string) :
  objectExists ledger bucket object = Ok tt <->
  be_Name (bucketAt ledger bucket) <> "" /\
  oe_Name (objectAt (bucketAt ledger bucket) object) <> "".
Proof.
  unfold objectExists.
  destruct (String.eqb_spec (be_Name (bucketAt ledger bucket)) "") as [Hb|Hb].
  { split; [done|]. by intros [? _]. }
  destruct (String.eqb_spec (oe_Name (objectAt (bucketAt ledger bucket) object)) "")
    as [Ho|Ho].
  { split; [done|]. by intros [_ ?]. }
  done.
Qed.

Lemma bucketAt_name (ledger : Ledger) (name : string) :
  names_match ledger -> bucketExists ledger name = true ->
  be_Name (bucketAt ledger name) = name.
Proof.
  intros Hm Hex. apply bucketExists_true in Hex. unfold bucketAt in *.
  destruct (Buckets ledger !! name) as [e|] eqn:He; simpl in *; [|done].
  by apply Hm.
Qed.

Lemma names_match_insert (ledger : Ledger) (name : string) (e : LedgerBucketEntry) :
  names_match ledger -> be_Name e = name ->
  names_match (mkLedger (<[name := e]> (Buckets ledger))).
Proof.
  intros Hm He k e'. simpl. rewrite lookup_insert.
  case_decide as Hk; [|apply Hm]. intros [= <-]. by subst.
Qed.

Lemma step_names_match (le le' : LedgerStore) :
  store_names_match le -> step le le' -> store_names_match le'.
Proof.
  intros Hle Hstep. destruct Hstep as
    [name hash le|name hash le|b o le|b o h le|name le].
  - unfold NewBucket, getLedger. destruct (ds le) as [ledger|] eqn:Hds; [|done].
    destruct (bucketExists ledger name); [done|].
    intros ledger' [= <-]. apply names_match_insert; [by apply Hle|done].
  - unfold UpdateBucketHash, getLedger.
    destruct (ds le) as [ledger|] eqn:Hds; [|done].
    destruct (bucketExists ledger name) eqn:Hex; [|done].
    intros ledger' [= <-]. apply names_match_insert; [by apply Hle|].
    simpl. apply bucketAt_name; [by apply Hle|done].
  - by rewrite RemoveObject_no_write.
  - unfold AddObjectToBucket, getLedger.
    destruct (ds le) as [ledger|] eqn:Hds; [|done].
    destruct (bucketExists ledger b) eqn:Hex; [|done].
    intros ledger' [= <-]. apply names_match_insert; [by apply Hle|].
    simpl. apply bucketAt_name; [by apply Hle|done].
  - unfold DeleteBucket, getLedger.
    destruct (ds le) as [ledger|] eqn:Hds; [|done].
    destruct (String.eqb _ _); [done|].
    intros ledger' [= <-] k e. simpl. rewrite lookup_delete.
    case_decide; [done|]. by apply Hle.
Qed.

Lemma reachable_names_match (le : LedgerStore) :
  reachable le -> store_names_match le.
Proof.
  induction 1 as [|le le' _ IH Hstep].
  - intros ledger [= <-] k e. simpl. by rewrite lookup_empty.
  - by eapply step_names_match.
Qed.

(** A successful AddObjectToBucket of the empty object name leaves an
    object that ObjectExists does not find. *)
Lemma AddObjectToBucket_empty_name (bucket hash : string) (le le' : LedgerStore) :
  AddObjectToBucket bucket "" hash le = (Ok tt, le') ->
  ObjectExists bucket "" le' = Err ErrLedgerObjectDoesNotExist.
Proof.
  unfold AddObjectToBucket, getLedger.
  destruct (ds le) as [ledger|] eqn:Hds; [|done].
  destruct (bucketExists ledger bucket) eqn:Hex; [|done].
  intros [= <-]. unfold ObjectExists, getLedger, objectExists, bucketAt. simpl.
  rewrite lookup_insert_eq. simpl.
  apply bucketExists_true, String_eqb_false_iff in Hex. unfold bucketAt in Hex.
  rewrite Hex. unfold objectAt. simpl. by rewrite lookup_insert_eq.
Qed.

End FirstLedger.

(** C10: in the first ledger a bucket exists exactly when the entry
    found under its name has a non-empty Name, and an object exists
    exactly when moreover the entry found under the object's name has a
    non-empty Name. So an entry stored under the empty name is never
    seen: after a successful PutObject of the object name "" into a
    bucket, ObjectExists fails with the object-does-not-exist error and
    GetObject with ObjectNotFound; and in no state the ledger store
    reaches does BucketExists report a bucket named "". *)
Theorem empty_name_never_observable :
  (forall ledger name,
     V1.bucketExists ledger name = true
     <-> V1.be_Name (V1.bucketAt ledger name) <> "") /\
  (forall ledger bucket object,
     V1.objectExists ledger bucket object = Ok tt
     <-> V1.be_Name (V1.bucketAt ledger bucket) <> "" /\
         V1.oe_Name (V1.objectAt (V1.bucketAt ledger bucket) object) <> "") /\
  (forall (ipfs : Type) objectToIPFS addObjectToBucketAndIPFS objectFromBucket
          getMinioObjectInfo bucket data UserDefined now
          (x x' : V1.xObjects ipfs) info,
     V1.PutObject ipfs objectToIPFS addObjectToBucketAndIPFS getMinioObjectInfo
       bucket "" data UserDefined now x = (Ok info, x') ->
     V1.ObjectExists bucket "" (V1.ledgerStore ipfs x')
       = Err ErrLedgerObjectDoesNotExist /\
     V1.GetObject ipfs objectFromBucket bucket "" x' = Err ObjectNotFound) /\
  (forall le, V1.reachable le -> V1.BucketExists "" le = false).
Proof.
  split; [exact bucketExists_true|]. split; [exact objectExists_ok|]. split.
  - intros ipfs objectToIPFS addObjectToBucketAndIPFS objectFromBucket
      getMinioObjectInfo bucket data UserDefined now x x' info.
    unfold V1.PutObject.
    destruct (negb _); [done|].
    destruct (objectToIPFS _ _) as [[objectHash| |] node1]; [|done|done].
    destruct (addObjectToBucketAndIPFS _ _ _ _ _) as [[bucketHash| |] node2];
      [|done|done]. simpl.
    destruct (V1.UpdateBucketHash _ _ _) as [[[]| |] le1]; [|done|done].
    destruct (V1.AddObjectToBucket _ _ _ _) as [[[]| |] le2] eqn:Hadd; [|done|done].
    intros [= _ <-]. simpl.
    apply AddObjectToBucket_empty_name in Hadd.
    split; [done|]. unfold V1.GetObject. simpl. by rewrite Hadd.
  - intros le Hle%reachable_names_match.
    unfold V1.BucketExists, V1.getLedger.
    destruct (V1.ds le) as [ledger|] eqn:Hds; [|done].
    unfold V1.bucketExists, V1.bucketAt.
    destruct (V1.Buckets ledger !! "") as [e|] eqn:He; simpl; [|done].
    by rewrite (Hle ledger Hds _ _ He).
Qed.

Lemma empty_name_never_observable_witness :
  fst Scenario.gateway1_put = Ok (mkObjectInfo "b1" "" 0 5 "" "" "" "") /\
  V1.ObjectExists "b1" "" (V1.ledgerStore unit (snd Scenario.gateway1_put))
    = Err ErrLedgerObjectDoesNotExist /\
  V1.GetObject unit Scenario.okObjectFromBucket "b1" "" (snd Scenario.gateway1_put)
    = Err ObjectNotFound /\
  V1.reachable Scenario.emptyNamed /\
  fst (V1.NewBucket "" "QmEmpty" V1.newLedgerStore) = Ok tt /\
  V1.BucketExists "" Scenario.emptyNamed = false.
Proof.
  assert (V1.reachable Scenario.emptyNamed) as Hr.
  { eapply V1.reachable_step; [apply V1.reachable_new|apply V1.step_NewBucket]. }
  split; [reflexivity|].
  destruct empty_name_never_observable as (_ & _ & Hput & Hbucket).
  destruct (Hput unit Scenario.okObjectToIPFS Scenario.okAddObjectToBucketAndIPFS
              Scenario.okObjectFromBucket Scenario.okGetMinioObjectInfo
              "b1" Scenario.hello [] 0 Scenario.gateway1 (snd Scenario.gateway1_put)
              (mkObjectInfo "b1" "" 0 5 "" "" "" "") eq_refl) as [H1 H2].
  split; [exact H1|]. split; [exact H2|]. split; [exact Hr|].
  split; [reflexivity|]. exact (Hbucket _ Hr).
Defined.

(** ** The integrity check of the DAG syncer *)

(** C8: Get returns a node only when the client answered with bytes
    whose recomputed CID is the requested one (and the node is the
    decoding of these bytes); and when the client answers with bytes
    whose recomputed CID differs, Get returns no node and the
    unexpected-data error, and leaves the datastore as it was. *)
Theorem Get_returns_only_verified_blocks (Cid : Type) `{EqDecision Cid}
  (Node Datastore : Type) (Dag : Cid -> error + list byte)
  (blockCid : list byte -> Cid) (Decode : list byte -> error + Node)
  (dsPut : Cid -> Datastore -> option error * Datastore)
  (c : Cid) (store : Datastore) :
  (forall n err store',
     DagSyncer.Get Cid Node Datastore Dag blockCid Decode dsPut c store
       = ((Some n, err), store') ->
     exists RawData,
       Dag c = inr RawData /\ blockCid RawData = c /\ Decode RawData = inr n) /\
  (forall RawData,
     Dag c = inr RawData -> blockCid RawData <> c ->
     DagSyncer.Get Cid Node Datastore Dag blockCid Decode dsPut c store
       = ((None, Some ErrUnexpectedData), store)).
Proof.
  unfold DagSyncer.Get. split.
  - intros n err store'.
    destruct (Dag c) as [e|RawData]; [done|].
    case_decide as Hc; [|done].
    destruct (Decode RawData) as [e|n'] eqn:Hd; simpl.
    + done.
    + destruct (dsPut c store) as [err' store'']. intros [= -> _ _]. eauto.
  - intros RawData -> Hne. by rewrite decide_False.
Qed.

Lemma Get_returns_only_verified_blocks_witness :
  DagSyncer.Get string (list byte) (list string) Scenario.helloDag Scenario.rawCid
    Scenario.rawDecode Scenario.seenPut "hello" []
    = ((Some Scenario.hello, None), ["hello"]) /\
  (exists RawData,
     Scenario.helloDag "hello" = inr RawData /\
     Scenario.rawCid RawData = "hello" /\
     Scenario.rawDecode RawData = inr Scenario.hello) /\
  Scenario.helloDag "other" = inr Scenario.hello /\
  Scenario.rawCid Scenario.hello <> "other" /\
  DagSyncer.Get string (list byte) (list string) Scenario.helloDag Scenario.rawCid
    Scenario.rawDecode Scenario.seenPut "other" []
    = ((None, Some ErrUnexpectedData), []).
Proof.
  split; [reflexivity|]. split.
  - apply (proj1 (Get_returns_only_verified_blocks string (list byte) (list string)
                    Scenario.helloDag Scenario.rawCid Scenario.rawDecode
                    Scenario.seenPut "hello" [])
             Scenario.hello None ["hello"]).
    reflexivity.
  - split; [reflexivity|]. split; [discriminate|].
    apply (proj2 (Get_returns_only_verified_blocks string (list byte) (list string)
                    Scenario.helloDag Scenario.rawCid Scenario.rawDecode
                    Scenario.seenPut "other" [])
             Scenario.hello); [reflexivity|discriminate].
Defined.

(** ** The content-addressed store *)

Section Store.

Import V2.

Variable cid_of : Block -> string.

(** Distinct blocks have distinct CIDs. *)
Hypothesis cid_of_inj : forall blk blk', cid_of blk = cid_of blk' -> blk = blk'.

Local Abbreviation stored := (V2.stored cid_of).

Lemma ipfsLoad_ok (c : string) (blk : Block) (ls ls' : ledgerStore) :
  ipfsLoad cid_of c ls = (Ok blk, ls') <-> stored (dag ls) c blk /\ ls' = ls.
Proof.
  unfold ipfsLoad, stored. split.
  - destruct (dag ls !! c) as [blk'|]; [|done].
    case_decide; [|done]. by intros [= <- <-].
  - intros [[-> Hc] ->]. by rewrite decide_True.
Qed.

(** A save keeps what was stored, and stores the block under its CID. *)
Lemma stored_save (d : gmap string Block) (c : string) (blk blk' : Block) :
  stored d c blk -> stored (<[cid_of blk' := blk']> d) c blk.
Proof.
  intros [Hd Hc]. split; [|done].
  destruct (decide (cid_of blk' = c)) as [Heq|Hne].
  - rewrite <- Hc in Heq. apply cid_of_inj in Heq as ->.
    rewrite Hc. apply lookup_insert_eq.
  - by rewrite lookup_insert_ne.
Qed.

Lemma stored_save_eq (d : gmap string Block) (blk : Block) :
  stored (<[cid_of blk := blk]> d) (cid_of blk) blk.
Proof. split; [apply lookup_insert_eq|done]. Qed.

Lemma convertErr_ok {A} (m : M A) (a : A) (ls ls' : ledgerStore) :
  convertErr m ls = (Ok a, ls') -> m ls = (Ok a, ls').
Proof.
  unfold convertErr. destruct (m ls) as [[a'| |] ls1]; simpl; congruence.
Qed.

Lemma ipfsObject_ok (c : string) (obj : Object) (ls ls' : ledgerStore) :
  ipfsObject cid_of c ls = (Ok obj, ls') <->
  stored (dag ls) c (ObjectBlock obj) /\ ls' = ls.
Proof.
  unfold ipfsObject, mbind. split.
  - destruct (ipfsLoad cid_of c ls) as [[blk| |] ls1] eqn:Hl; try done.
    apply ipfsLoad_ok in Hl as [Hs ->].
    destruct blk; try done. by intros [= <- <-].
  - intros [Hs ->]. by rewrite (proj2 (ipfsLoad_ok _ _ _ _) (conj Hs eq_refl)).
Qed.

Lemma ipfsBytes_ok (c : string) (data : list byte) (ls ls' : ledgerStore) :
  ipfsBytes cid_of c ls = (Ok data, ls') <->
  stored (dag ls) c (RawBlock data) /\ ls' = ls.
Proof.
  unfold ipfsBytes, mbind. split.
  - destruct (ipfsLoad cid_of c ls) as [[blk| |] ls1] eqn:Hl; try done.
    apply ipfsLoad_ok in Hl as [Hs ->].
    destruct blk; try done. by intros [= <- <-].
  - intros [Hs ->]. by rewrite (proj2 (ipfsLoad_ok _ _ _ _) (conj Hs eq_refl)).
Qed.

Lemma ipfsBucket_ok (c : string) (b : BucketRecord) (ls ls' : ledgerStore) :
  ipfsBucket cid_of c ls = (Ok b, ls') <->
  stored (dag ls) c (BucketBlock b) /\ ls' = ls.
Proof.
  unfold ipfsBucket, mbind. split.
  - destruct (ipfsLoad cid_of c ls) as [[blk| |] ls1] eqn:Hl; try done.
    apply ipfsLoad_ok in Hl as [Hs ->].
    destruct blk; try done. by intros [= <- <-].
  - intros [Hs ->]. by rewrite (proj2 (ipfsLoad_ok _ _ _ _) (conj Hs eq_refl)).
Qed.

(** A load of a bucket changes the cache only, where it installs the
    record it returns. *)
Lemma getBucketLoaded_ok (bucket : string) (b : BucketRecord) (ls ls' : ledgerStore) :
  getBucketLoaded cid_of bucket ls = (Ok b, ls') ->
  ls' = set_cache (insert bucket b) ls /\ is_Some (ds ls !! bucket) \/
  ls' = ls /\ cache ls !! bucket = Some b.
Proof.
  unfold getBucketLoaded.
  destruct (cache ls !! bucket) as [b'|] eqn:Hc.
  { intros [= <- <-]. by right. }
  destruct (ds ls !! bucket) as [c|] eqn:Hds; [|done].
  destruct (ipfsBucket cid_of c ls) as [[b'| |] ls1] eqn:Hl; try done.
  apply ipfsBucket_ok in Hl as [_ ->]. intros [= <- <-]. left. eauto.
Qed.

Lemma getBucketLoaded_cached (bucket : string) (b : BucketRecord) (ls : ledgerStore) :
  cache ls !! bucket = Some b -> getBucketLoaded cid_of bucket ls = (Ok b, ls).
Proof. unfold getBucketLoaded. by intros ->. Qed.

Lemma getBucketLoaded_post (bucket : string) (b : BucketRecord) (ls ls' : ledgerStore) :
  getBucketLoaded cid_of bucket ls = (Ok b, ls') ->
  cache ls' !! bucket = Some b /\ dag ls' = dag ls /\ ds ls' = ds ls /\ l ls' = l ls /\
  (forall k, k <> bucket -> cache ls' !! k = cache ls !! k).
Proof.
  intros [[-> _]|[-> Hc]]%getBucketLoaded_ok; simpl.
  - rewrite lookup_insert_eq. repeat split; try done.
    intros k Hk. by rewrite lookup_insert_ne.
  - done.
Qed.

Lemma object_ok (bucket name : string) (o : option Object) (ls ls' : ledgerStore) :
  object cid_of bucket name ls = (Ok o, ls') ->
  exists b c obj,
    getBucketLoaded cid_of bucket ls = (Ok b, ls') /\
    Objects b !! name = Some c /\
    stored (dag ls') c (ObjectBlock obj) /\ o = Some obj.
Proof.
  unfold object, mbind.
  destruct (getBucketLoaded cid_of bucket ls) as [[b| |] ls1] eqn:Hb; try done.
  destruct (Objects b !! name) as [c|] eqn:Hc; [|done].
  destruct (ipfsObject cid_of c ls1) as [[obj| |] ls2] eqn:Ho; try done.
  apply ipfsObject_ok in Ho as [Hs ->]. intros [= <- <-]. eauto 10.
Qed.

Lemma object_cached (bucket name c : string) (b : BucketRecord) (obj : Object)
  (ls : ledgerStore) :
  cache ls !! bucket = Some b -> Objects b !! name = Some c ->
  stored (dag ls) c (ObjectBlock obj) ->
  object cid_of bucket name ls = (Ok (Some obj), ls).
Proof.
  intros Hb Hc Hs. unfold object, mbind.
  rewrite (getBucketLoaded_cached _ _ _ Hb), Hc.
  by rewrite (proj2 (ipfsObject_ok _ _ _ _) (conj Hs eq_refl)).
Qed.

(** What a successful putObject leaves: the new bucket record in the
    cache, the object record and everything stored before in the DAG
    store, and the other cache entries as the load of the bucket left
    them. *)
Lemma putObject_ok (bucket name : string) (obj : Object) (ls ls' : ledgerStore) :
  putObject cid_of bucket name obj ls = (Ok tt, ls') ->
  exists b ls1,
    getBucketLoaded cid_of bucket ls = (Ok b, ls1) /\
    cache ls' !! bucket
      = Some (mkBucketRecord (b_Name b) (b_Created b) (b_Location b)
                (<[name := cid_of (ObjectBlock obj)]> (Objects b))) /\
    (forall k, k <> bucket -> cache ls' !! k = cache ls1 !! k) /\
    stored (dag ls') (cid_of (ObjectBlock obj)) (ObjectBlock obj) /\
    (forall c blk, stored (dag ls) c blk -> stored (dag ls') c blk) /\
    l ls' = l ls.
Proof.
  unfold putObject, mbind, ipfsSave.
  destruct (getBucketLoaded cid_of bucket ls) as [[b| |] ls1] eqn:Hb; try done.
  intros [= <-]. exists b, ls1. split; [done|].
  apply getBucketLoaded_post in Hb as (_ & Hdag & _ & Hl & _). simpl.
  rewrite lookup_insert_eq. split; [done|]. split.
  { intros k Hk. by rewrite lookup_insert_ne. }
  split; [apply stored_save, stored_save_eq|]. split; [|done].
  intros c blk Hs. rewrite Hdag. by do 2 apply stored_save.
Qed.

End Store.

(** ** PutObject, then GetObject *)

Lemma setUserDefined_size (obinfo : ObjectInfo) (kv : string * string) :
  Size_ (setUserDefined obinfo kv) = Size_ obinfo.
Proof.
  unfold setUserDefined. by repeat (destruct (String.eqb _ _); [done|]).
Qed.

Lemma applyUserDefined_size (UserDefined : list (string * string)) (obinfo : ObjectInfo) :
  Size_ (applyUserDefined obinfo UserDefined) = Size_ obinfo.
Proof.
  unfold applyUserDefined. revert obinfo.
  induction UserDefined as [|kv rest IH]; intros obinfo; simpl; [done|].
  by rewrite IH, setUserDefined_size.
Qed.

Lemma newObjectInfo_size (isTest : bool) (bucket name : string) (size : Z)
  (UserDefined : list (string * string)) (now : Z) :
  Size_ (V2.newObjectInfo isTest bucket name size UserDefined now) = size.
Proof.
  unfold V2.newObjectInfo. rewrite applyUserDefined_size. by destruct isTest.
Qed.

Section PutGet.

Import V2.

Variable cid_of : Block -> string.
Variable isTest : bool.
Hypothesis cid_of_inj : forall blk blk', cid_of blk = cid_of blk' -> blk = blk'.

(** What a successful PutObject leaves in the store. *)
Lemma PutObject_ok (bucket name : string) (data : list byte)
  (UserDefined : list (string * string)) (now : Z) (info : ObjectInfo)
  (ls ls' : ledgerStore) :
  PutObject cid_of isTest bucket name data UserDefined now ls = (Ok info, ls') ->
  info = newObjectInfo isTest bucket name (len data) UserDefined now /\
  exists b,
    cache ls' !! bucket = Some b /\
    Objects b !! name
      = Some (cid_of (ObjectBlock (mkObject (cid_of (RawBlock data)) info))) /\
    stored cid_of (dag ls')
      (cid_of (ObjectBlock (mkObject (cid_of (RawBlock data)) info)))
      (ObjectBlock (mkObject (cid_of (RawBlock data)) info)) /\
    stored cid_of (dag ls') (cid_of (RawBlock data)) (RawBlock data).
Proof.
  unfold PutObject, mbind, AssertBucketExits, ls_PutObject.
  destruct (convertErr (assertBucketExits bucket) ls) as [[[]| |] ls0] eqn:Ha;
    try done.
  apply convertErr_ok, assertBucketExits_inv in Ha as [-> _].
  unfold ipfsSaveBytes, ipfsSave, convertErr at 1. simpl.
  set (obj := mkObject _ _).
  destruct (convertErr (putObject cid_of bucket name obj) _) as [[[]| |] ls2] eqn:Hp;
    try done.
  apply convertErr_ok, (putObject_ok cid_of cid_of_inj) in Hp
    as (b & ls1 & _ & Hc & _ & Ho & Hmono & _).
  intros [= <- <-]. split; [done|]. eexists. split; [exact Hc|].
  simpl. rewrite lookup_insert_eq. split; [done|]. split; [exact Ho|].
  apply Hmono. simpl. apply stored_save_eq.
Qed.

End PutGet.

(** C2: when PutObject of [bytes] under an object name of a bucket
    succeeds, GetObject of the object over the full range, offset 0 and
    length [len(bytes)], writes exactly [bytes], and the ObjectInfo
    stored with the object, the one PutObject returns and HeadObject
    reads, has size [len(bytes)]. The CID function has no collisions,
    and the length is an [int]. *)
Theorem PutObject_then_GetObject (cid_of : V2.Block -> string) (isTest : bool)
  (bucket name : string) (data : list byte) (UserDefined : list (string * string))
  (now : Z) (info : ObjectInfo) (ls ls' : V2.ledgerStore) :
  (forall blk blk', cid_of blk = cid_of blk' -> blk = blk') ->
  len data < 2 ^ 63 ->
  V2.PutObject cid_of isTest bucket name data UserDefined now ls = (Ok info, ls') ->
  fst (V2.GetObject cid_of bucket name 0 (len data) ls') = Ok data /\
  fst (V2.GetObjectInfo cid_of bucket name ls') = Ok info /\
  Size_ info = len data.
Proof.
  intros Hinj Hlen Hput.
  apply (PutObject_ok cid_of isTest Hinj) in Hput as (Hinfo & b & Hc & Hn & Ho & Hd).
  pose proof (object_cached cid_of _ _ _ _ _ _ Hc Hn Ho) as Hobj.
  assert (V2.ObjectData cid_of bucket name ls' = (Ok data, ls')) as Hdata.
  { unfold V2.ObjectData, V2.mbind. rewrite Hobj. simpl.
    by apply ipfsBytes_ok. }
  split; [|split].
  - rewrite (GetObject_range_nonneg cid_of bucket name 0 (len data) ls' ls' data Hdata)
      by (unfold len in *; lia).
    rewrite Z.add_0_l, Z.ltb_irrefl. simpl.
    unfold len. rewrite Nat2Z.id, drop_0. by rewrite firstn_all.
  - unfold V2.GetObjectInfo, V2.convertErr, V2.ls_ObjectInfo, V2.mbind.
    by rewrite Hobj.
  - rewrite Hinfo. apply newObjectInfo_size.
Qed.

(** ** The identity CID has no collisions *)

Section IdentityCidFacts.

Import V2 IdentityCid.

Lemma esc_inj (a a' rest rest' : string) :
  esc a rest = esc a' rest' -> a = a' /\ rest = rest'.
Proof.
  revert a'. induction a as [|c a IH]; intros [|c' a']; simpl; try done.
  - by intros [= ->].
  - intros [= -> H]. apply IH in H as [-> ->]. done.
Qed.

Lemma ser_Z_inj (z z' : Z) (rest rest' : string) :
  ser_Z z rest = ser_Z z' rest' -> z = z' /\ rest = rest'.
Proof.
  unfold ser_Z. intros [Hz ->]%esc_inj. split; [|done].
  by apply (inj pretty) in Hz.
Qed.

Lemma ser_info_inj (i i' : ObjectInfo) (rest rest' : string) :
  ser_info i rest = ser_info i' rest' -> i = i' /\ rest = rest'.
Proof.
  destruct i, i'. unfold ser_info. simpl.
  intros [-> H]%esc_inj. apply esc_inj in H as [-> H].
  apply ser_Z_inj in H as [-> H]. apply ser_Z_inj in H as [-> H].
  apply esc_inj in H as [-> H]. apply esc_inj in H as [-> H].
  apply esc_inj in H as [-> H]. apply esc_inj in H as [-> H]. done.
Qed.

Lemma ser_objs_inj (objs objs' : list (string * string)) :
  ser_objs objs = ser_objs objs' -> objs = objs'.
Proof.
  revert objs'. induction objs as [|[k v] objs IH]; intros [|[k' v'] objs'];
    simpl; try done.
  intros [= H]. apply esc_inj in H as [-> H]. apply esc_inj in H as [-> H].
  by rewrite (IH _ H).
Qed.

Lemma identityCid_inj (blk blk' : Block) :
  identityCid blk = identityCid blk' -> blk = blk'.
Proof.
  destruct blk as [data|[dh info]|[n c loc objs]],
           blk' as [data'|[dh' info']|[n' c' loc' objs']]; simpl; try done.
  - intros [= H]. f_equal.
    rewrite <- (list_byte_of_string_of_list_byte data),
            <- (list_byte_of_string_of_list_byte data'). by rewrite H.
  - intros [= H]. apply esc_inj in H as [-> H].
    by apply ser_info_inj in H as [-> _].
  - intros [= H]. apply esc_inj in H as [-> H]. apply ser_Z_inj in H as [-> H].
    apply esc_inj in H as [-> H]. apply ser_objs_inj in H.
    do 2 f_equal. apply map_to_list_inj. by rewrite H.
Qed.

End IdentityCidFacts.

Lemma PutObject_then_GetObject_witness :
  (forall blk blk',
     IdentityCid.identityCid blk = IdentityCid.identityCid blk' -> blk = blk') /\
  len Scenario.hello < 2 ^ 63 /\
  V2.PutObject IdentityCid.identityCid true "b1" "k" Scenario.hello [] 0
    Scenario.created
    = (Ok (mkObjectInfo "b1" "k" 0 5 "" "" "" ""), Scenario.withK) /\
  fst (V2.GetObject IdentityCid.identityCid "b1" "k" 0 (len Scenario.hello)
         Scenario.withK) = Ok Scenario.hello /\
  fst (V2.GetObjectInfo IdentityCid.identityCid "b1" "k" Scenario.withK)
    = Ok (mkObjectInfo "b1" "k" 0 5 "" "" "" "") /\
  Size_ (mkObjectInfo "b1" "k" 0 5 "" "" "" "") = len Scenario.hello.
Proof.
  assert (V2.PutObject IdentityCid.identityCid true "b1" "k" Scenario.hello [] 0
            Scenario.created
          = (Ok (mkObjectInfo "b1" "k" 0 5 "" "" "" ""), Scenario.withK)) as Hput.
  { vm_compute. reflexivity. }
  split; [exact identityCid_inj|]. split; [vm_compute; reflexivity|].
  split; [exact Hput|].
  apply (PutObject_then_GetObject IdentityCid.identityCid true "b1" "k"
           Scenario.hello [] 0 _ Scenario.created Scenario.withK identityCid_inj).
  - vm_compute. reflexivity.
  - exact Hput.
Defined.

(** ** CopyObject *)

Section Copy.

Import V2.

Variable cid_of : Block -> string.
Hypothesis cid_of_inj : forall blk blk', cid_of blk = cid_of blk' -> blk = blk'.

Lemma GetObjectHash_cached (bucket name h : string) (b : BucketRecord)
  (ls : ledgerStore) :
  cache ls !! bucket = Some b -> Objects b !! name = Some h ->
  GetObjectHash cid_of bucket name ls = (Ok h, ls).
Proof.
  intros Hb Hh. unfold GetObjectHash, GetObjectHashes, mbind, ret.
  by rewrite (getBucketLoaded_cached _ _ _ _ Hb), Hh.
Qed.

Lemma GetObjectHash_loaded (bucket name h : string) (b : BucketRecord)
  (ls ls' : ledgerStore) :
  getBucketLoaded cid_of bucket ls = (Ok b, ls') -> Objects b !! name = Some h ->
  GetObjectHash cid_of bucket name ls = (Ok h, ls').
Proof.
  intros Hb Hh. unfold GetObjectHash, GetObjectHashes, mbind, ret.
  by rewrite Hb, Hh.
Qed.

(** What a successful CopyObject did. *)
Lemma CopyObject_ok (srcBucket srcObject dstBucket dstObject : string) (now : Z)
  (info : ObjectInfo) (ls ls' : ledgerStore) :
  CopyObject cid_of srcBucket srcObject dstBucket dstObject now ls = (Ok info, ls') ->
  exists obj1 ls1,
    object cid_of srcBucket srcObject ls = (Ok (Some obj1), ls1) /\
    info = mkObjectInfo dstBucket dstObject now (Size_ (ObjectInfo_ obj1))
             (ContentEncoding (ObjectInfo_ obj1))
             (ContentDisposition (ObjectInfo_ obj1))
             (ContentLanguage (ObjectInfo_ obj1)) (ContentType (ObjectInfo_ obj1)) /\
    putObject cid_of dstBucket dstObject (mkObject (DataHash obj1) info) ls1
      = (Ok tt, ls').
Proof.
  unfold CopyObject, mbind.
  destruct (convertErr (assertBucketExits dstBucket) ls) as [[[]| |] ls0] eqn:Ha;
    try done.
  apply convertErr_ok, assertBucketExits_inv in Ha as [-> _].
  destruct (convertErr (object cid_of srcBucket srcObject) ls) as [[o| |] ls1] eqn:Ho;
    try done.
  apply convertErr_ok in Ho. destruct o as [obj1|]; [|done]. simpl.
  destruct (convertErr (putObject cid_of dstBucket dstObject _) ls1)
    as [[[]| |] ls2] eqn:Hp; try done.
  apply convertErr_ok in Hp. intros [= <- <-].
  exists obj1, ls1. split; [done|]. split; [done|]. exact Hp.
Qed.

End Copy.

(** C5, as the specification states it, fails when an object is copied
    onto itself: "k" of the bucket "b1", put at time 0, is copied to "k"
    of "b1" at time 7. The copy succeeds and keeps the dataHash, but the
    bucket's entry for "k" now points to a new object record, with the
    new modification time. *)
Lemma CopyObject_onto_itself_changes_source :
  fst (V2.CopyObject IdentityCid.identityCid "b1" "k" "b1" "k" 7 Scenario.withK)
    = Ok (mkObjectInfo "b1" "k" 7 5 "" "" "" "") /\
  (exists obj1 obj2 h1 h2,
     fst (V2.object IdentityCid.identityCid "b1" "k" Scenario.withK) = Ok (Some obj1) /\
     fst (V2.object IdentityCid.identityCid "b1" "k" Scenario.copiedOntoItself)
       = Ok (Some obj2) /\
     fst (V2.GetObjectHash IdentityCid.identityCid "b1" "k" Scenario.withK) = Ok h1 /\
     fst (V2.GetObjectHash IdentityCid.identityCid "b1" "k" Scenario.copiedOntoItself)
       = Ok h2 /\
     V2.DataHash obj2 = V2.DataHash obj1 /\
     obj2 <> obj1 /\ h2 <> h1).
Proof.
  split; [vm_compute; reflexivity|].
  eexists _, _, _, _.
  split; [vm_compute; reflexivity|]. split; [vm_compute; reflexivity|].
  split; [vm_compute; reflexivity|]. split; [vm_compute; reflexivity|].
  split; [reflexivity|]. split; [discriminate|].
  intros Heq. vm_compute in Heq. discriminate Heq.
Qed.

(** C5, amended: a successful CopyObject(s, so, d, do) leaves under
    (d, do) an object record with the dataHash of the source object
    record and the ObjectInfo it returns; and unless the destination is
    the source itself (same bucket and same object name), the source
    object record and the entry of the source bucket for [so] are what
    they were. The CID function has no collisions. *)
Theorem CopyObject_keeps_dataHash_and_source (cid_of : V2.Block -> string)
  (srcBucket srcObject dstBucket dstObject : string) (now : Z)
  (info : ObjectInfo) (ls ls' : V2.ledgerStore) :
  (forall blk blk', cid_of blk = cid_of blk' -> blk = blk') ->
  V2.CopyObject cid_of srcBucket srcObject dstBucket dstObject now ls = (Ok info, ls') ->
  exists obj1 h1,
    fst (V2.object cid_of srcBucket srcObject ls) = Ok (Some obj1) /\
    fst (V2.GetObjectHash cid_of srcBucket srcObject ls) = Ok h1 /\
    fst (V2.object cid_of dstBucket dstObject ls')
      = Ok (Some (V2.mkObject (V2.DataHash obj1) info)) /\
    ((srcBucket, srcObject) <> (dstBucket, dstObject) ->
       fst (V2.object cid_of srcBucket srcObject ls') = Ok (Some obj1) /\
       fst (V2.GetObjectHash cid_of srcBucket srcObject ls') = Ok h1).
Proof.
  intros Hinj Hcopy.
  apply CopyObject_ok in Hcopy as (obj1 & ls1 & Hobj & _ & Hput).
  pose proof Hobj as Hobj'.
  apply object_ok in Hobj' as (b & c & obj1' & Hb & Hc & Hs & [= <-]).
  apply (putObject_ok cid_of Hinj) in Hput
    as (bd & ls2 & Hbd & Hcd & Hframe & Hso & Hmono & _).
  exists obj1, c. rewrite Hobj. split; [done|].
  split; [by rewrite (GetObjectHash_loaded cid_of _ _ _ _ _ _ Hb Hc)|].
  split.
  { erewrite object_cached; [done|exact Hcd| |exact Hso].
    simpl. apply lookup_insert_eq. }
  intros Hne.
  pose proof (getBucketLoaded_post cid_of _ _ _ _ Hb) as (Hcb & _).
  assert (exists b', V2.cache ls' !! srcBucket = Some b' /\
                     V2.Objects b' !! srcObject = Some c) as (b' & Hc' & Ho').
  { destruct (decide (srcBucket = dstBucket)) as [->|Hbne].
    - rewrite (getBucketLoaded_cached cid_of _ _ _ Hcb) in Hbd.
      injection Hbd as <- <-. eexists. split; [exact Hcd|]. simpl.
      rewrite lookup_insert_ne; [done|]. congruence.
    - exists b. split; [|done]. rewrite Hframe by done.
      pose proof (getBucketLoaded_post cid_of _ _ _ _ Hbd) as (_ & _ & _ & _ & Hk).
      by rewrite Hk. }
  split.
  - by rewrite (object_cached cid_of _ _ _ _ _ _ Hc' Ho' (Hmono _ _ Hs)).
  - by rewrite (GetObjectHash_cached cid_of _ _ _ _ _ Hc' Ho').
Qed.

Lemma CopyObject_keeps_dataHash_and_source_witness :
  (forall blk blk',
     IdentityCid.identityCid blk = IdentityCid.identityCid blk' -> blk = blk') /\
  V2.CopyObject IdentityCid.identityCid "b1" "k" "b2" "y" 7 Scenario.withK
    = (Ok (mkObjectInfo "b2" "y" 7 5 "" "" "" ""), Scenario.copiedAcross) /\
  ("b1", "k") <> ("b2", "y") /\
  exists obj1 h1,
    fst (V2.object IdentityCid.identityCid "b1" "k" Scenario.withK) = Ok (Some obj1) /\
    fst (V2.GetObjectHash IdentityCid.identityCid "b1" "k" Scenario.withK) = Ok h1 /\
    fst (V2.object IdentityCid.identityCid "b2" "y" Scenario.copiedAcross)
      = Ok (Some (V2.mkObject (V2.DataHash obj1)
                    (mkObjectInfo "b2" "y" 7 5 "" "" "" ""))) /\
    fst (V2.object IdentityCid.identityCid "b1" "k" Scenario.copiedAcross)
      = Ok (Some obj1) /\
    fst (V2.GetObjectHash IdentityCid.identityCid "b1" "k" Scenario.copiedAcross)
      = Ok h1.
Proof.
  assert (V2.CopyObject IdentityCid.identityCid "b1" "k" "b2" "y" 7 Scenario.withK
          = (Ok (mkObjectInfo "b2" "y" 7 5 "" "" "" ""), Scenario.copiedAcross))
    as Hcopy.
  { vm_compute. reflexivity. }
  split; [exact identityCid_inj|]. split; [exact Hcopy|].
  split; [discriminate|].
  destruct (CopyObject_keeps_dataHash_and_source IdentityCid.identityCid
              "b1" "k" "b2" "y" 7 _ Scenario.withK Scenario.copiedAcross
              identityCid_inj Hcopy) as (obj1 & h1 & H1 & H2 & H3 & H4).
  destruct H4 as [H4 H5]; [discriminate|].
  exists obj1, h1. auto.
Defined.

(** * Further properties of the code *)

(** ** The setters and getters of the first ledger *)

Section FirstLedgerOperations.

Import V1.

Lemma bucketAt_insert (ledger : Ledger) (name name' : string) (e : LedgerBucketEntry) :
  bucketAt (mkLedger (<[name := e]> (Buckets ledger))) name'
  = if decide (name = name') then e else bucketAt ledger name'.
Proof.
  unfold bucketAt. simpl. rewrite lookup_insert. by case_decide.
Qed.

Lemma bucketAt_delete (ledger : Ledger) (name name' : string) :
  bucketAt (mkLedger (delete name (Buckets ledger))) name'
  = if decide (name = name') then zeroBucketEntry else bucketAt ledger name'.
Proof.
  unfold bucketAt. simpl. rewrite lookup_delete. by case_decide.
Qed.

Lemma String_eqb_neq (a b : string) : a <> b -> String.eqb a b = false.
Proof. apply String_eqb_false_iff. Qed.

(** What a successful NewBucket did. *)
Lemma NewBucket_ok (name hash : string) (le : LedgerStore) :
  fst (NewBucket name hash le) = Ok tt ->
  exists ledger,
    ds le = Some ledger /\ bucketExists ledger name = false /\
    snd (NewBucket name hash le)
    = mkLedgerStore
        (Some (mkLedger (<[name := mkLedgerBucketEntry ∅ name hash]> (Buckets ledger)))).
Proof.
  unfold NewBucket, getLedger. destruct (ds le) as [ledger|]; [|done].
  destruct (bucketExists ledger name) eqn:Hex; [done|]. eauto.
Qed.

Lemma UpdateBucketHash_ok (name hash : string) (le : LedgerStore) :
  fst (UpdateBucketHash name hash le) = Ok tt ->
  exists ledger,
    ds le = Some ledger /\ bucketExists ledger name = true /\
    snd (UpdateBucketHash name hash le)
    = mkLedgerStore
        (Some (mkLedger
                 (<[name := mkLedgerBucketEntry (be_Objects (bucketAt ledger name))
                              (be_Name (bucketAt ledger name)) hash]>
                    (Buckets ledger)))).
Proof.
  unfold UpdateBucketHash, getLedger. destruct (ds le) as [ledger|]; [|done].
  destruct (bucketExists ledger name) eqn:Hex; [|done]. eauto.
Qed.

Lemma AddObjectToBucket_ok (bucket object hash : string) (le : LedgerStore) :
  fst (AddObjectToBucket bucket object hash le) = Ok tt ->
  exists ledger,
    ds le = Some ledger /\ bucketExists ledger bucket = true /\
    snd (AddObjectToBucket bucket object hash le)
    = mkLedgerStore
        (Some (mkLedger
                 (<[bucket :=
                      mkLedgerBucketEntry
                        (<[object := mkLedgerObjectEntry object hash]>
                           (be_Objects (bucketAt ledger bucket)))
                        (be_Name (bucketAt ledger bucket))
                        (be_IpfsHash (bucketAt ledger bucket))]>
                    (Buckets ledger)))).
Proof.
  unfold AddObjectToBucket, getLedger. destruct (ds le) as [ledger|]; [|done].
  destruct (bucketExists ledger bucket) eqn:Hex; [|done]. eauto.
Qed.

Lemma DeleteBucket_ok (name : string) (le : LedgerStore) :
  fst (DeleteBucket name le) = Ok tt ->
  exists ledger,
    ds le = Some ledger /\ bucketExists ledger name = true /\
    snd (DeleteBucket name le)
    = mkLedgerStore (Some (mkLedger (delete name (Buckets ledger)))).
Proof.
  unfold DeleteBucket, getLedger, bucketExists.
  destruct (ds le) as [ledger|]; [|done].
  destruct (String.eqb _ _) eqn:Hex; [done|]. intros _.
  exists ledger. by rewrite Hex.
Qed.

(** The getters read one bucket entry: stores that agree on the entry of
    a bucket answer alike for it. *)
Lemma getters_same_entry (name : string) (ledger ledger' : Ledger) :
  bucketAt ledger' name = bucketAt ledger name ->
  BucketExists name (mkLedgerStore (Some ledger'))
    = BucketExists name (mkLedgerStore (Some ledger)) /\
  GetBucketHash name (mkLedgerStore (Some ledger'))
    = GetBucketHash name (mkLedgerStore (Some ledger)) /\
  (forall o, GetObjectHash name o (mkLedgerStore (Some ledger'))
             = GetObjectHash name o (mkLedgerStore (Some ledger))) /\
  (forall o, ObjectExists name o (mkLedgerStore (Some ledger'))
             = ObjectExists name o (mkLedgerStore (Some ledger))).
Proof.
  intros H. unfold BucketExists, GetBucketHash, GetObjectHash, ObjectExists,
    getLedger, bucketExists, objectExists. simpl. by rewrite H.
Qed.

End FirstLedgerOperations.

Section FirstLedgerSetters.

Import V1.

(** Each setter on a bucket leaves the store as it was, or writes a
    ledger that has the same entry for every other bucket. *)
Lemma setter_touches_one_bucket (name : string) (le le' : LedgerStore) :
  (exists hash, le' = snd (NewBucket name hash le)) \/
  (exists hash, le' = snd (UpdateBucketHash name hash le)) \/
  (exists object hash, le' = snd (AddObjectToBucket name object hash le)) \/
  le' = snd (DeleteBucket name le) ->
  le' = le \/
  exists ledger ledger',
    ds le = Some ledger /\ le' = mkLedgerStore (Some ledger') /\
    forall name', name' <> name -> bucketAt ledger' name' = bucketAt ledger name'.
Proof.
  intros [[hash ->]|[[hash ->]|[(object & hash & ->)| ->]]].
  - unfold NewBucket, getLedger. destruct (ds le) as [ledger|] eqn:Hds; [|by left].
    destruct (bucketExists ledger name); [by left|]. right.
    eexists ledger, _. split; [done|]. split; [done|].
    intros name' Hne. rewrite bucketAt_insert. by rewrite decide_False.
  - unfold UpdateBucketHash, getLedger.
    destruct (ds le) as [ledger|] eqn:Hds; [|by left].
    destruct (bucketExists ledger name); [|by left]. right.
    eexists ledger, _. split; [done|]. split; [done|].
    intros name' Hne. rewrite bucketAt_insert. by rewrite decide_False.
  - unfold AddObjectToBucket, getLedger.
    destruct (ds le) as [ledger|] eqn:Hds; [|by left].
    destruct (bucketExists ledger name); [|by left]. right.
    eexists ledger, _. split; [done|]. split; [done|].
    intros name' Hne. rewrite bucketAt_insert. by rewrite decide_False.
  - unfold DeleteBucket, getLedger.
    destruct (ds le) as [ledger|] eqn:Hds; [|by left].
    destruct (String.eqb _ _); [by left|]. right.
    eexists ledger, _. split; [done|]. split; [done|].
    intros name' Hne. rewrite bucketAt_delete. by rewrite decide_False.
Qed.

End FirstLedgerSetters.

(** X1: NewBucket of a non-empty name that succeeds leaves a bucket that
    exists, has the hash given and holds no object; a second NewBucket
    of the name fails with the bucket-exists error and changes
    nothing. *)
Theorem NewBucket_then_bucket_exists (name hash hash' : string) (le : V1.LedgerStore) :
  name <> "" ->
  fst (V1.NewBucket name hash le) = Ok tt ->
  V1.BucketExists name (snd (V1.NewBucket name hash le)) = true /\
  V1.GetBucketHash name (snd (V1.NewBucket name hash le)) = Ok hash /\
  (forall o, V1.ObjectExists name o (snd (V1.NewBucket name hash le))
             = Err ErrLedgerObjectDoesNotExist) /\
  V1.NewBucket name hash' (snd (V1.NewBucket name hash le))
    = (Err ErrLedgerBucketExists, snd (V1.NewBucket name hash le)).
Proof.
  intros Hne (ledger & Hds & Hex & ->)%NewBucket_ok.
  unfold V1.BucketExists, V1.GetBucketHash, V1.ObjectExists, V1.NewBucket,
    V1.getLedger, V1.bucketExists, V1.objectExists. simpl.
  rewrite bucketAt_insert, decide_True by done. simpl.
  rewrite (String_eqb_neq _ _ Hne). simpl. repeat split.
Qed.

Lemma NewBucket_then_bucket_exists_witness :
  "b1" <> "" /\
  fst (V1.NewBucket "b1" "QmBucket" V1.newLedgerStore) = Ok tt /\
  V1.BucketExists "b1" (snd (V1.NewBucket "b1" "QmBucket" V1.newLedgerStore)) = true /\
  V1.GetBucketHash "b1" (snd (V1.NewBucket "b1" "QmBucket" V1.newLedgerStore))
    = Ok "QmBucket" /\
  fst (V1.NewBucket "b1" "QmOther"
         (snd (V1.NewBucket "b1" "QmBucket" V1.newLedgerStore)))
    = Err ErrLedgerBucketExists.
Proof.
  split; [discriminate|]. split; [reflexivity|].
  destruct (NewBucket_then_bucket_exists "b1" "QmBucket" "QmOther" V1.newLedgerStore)
    as (H1 & H2 & _ & H4); [discriminate|reflexivity|].
  split; [exact H1|]. split; [exact H2|]. by rewrite H4.
Defined.

(** X2: a setter on one bucket (NewBucket, UpdateBucketHash,
    AddObjectToBucket, DeleteBucket) never changes what the getters
    answer for another bucket: its existence, its hash, its objects. *)
Theorem setters_leave_other_buckets (name name' : string) (le le' : V1.LedgerStore) :
  name' <> name ->
  (exists hash, le' = snd (V1.NewBucket name hash le)) \/
  (exists hash, le' = snd (V1.UpdateBucketHash name hash le)) \/
  (exists object hash, le' = snd (V1.AddObjectToBucket name object hash le)) \/
  le' = snd (V1.DeleteBucket name le) ->
  V1.BucketExists name' le' = V1.BucketExists name' le /\
  V1.GetBucketHash name' le' = V1.GetBucketHash name' le /\
  (forall o, V1.GetObjectHash name' o le' = V1.GetObjectHash name' o le) /\
  (forall o, V1.ObjectExists name' o le' = V1.ObjectExists name' o le).
Proof.
  intros Hne [->|(ledger & ledger' & Hds & -> & Hsame)]%setter_touches_one_bucket;
    [done|].
  destruct le as [d]. simpl in Hds. subst d.
  apply getters_same_entry. by apply Hsame.
Qed.

Lemma setters_leave_other_buckets_witness :
  "b1" <> "b2" /\
  V1.GetObjectHash "b1" "k" (snd (V1.DeleteBucket "b2"
                                    (snd (V1.NewBucket "b2" "QmB2" Scenario.seeded))))
    = Ok "QmObject" /\
  V1.GetObjectHash "b1" "k" (snd (V1.NewBucket "b2" "QmB2" Scenario.seeded))
    = Ok "QmObject".
Proof.
  split; [discriminate|].
  destruct (setters_leave_other_buckets "b2" "b1"
              (snd (V1.NewBucket "b2" "QmB2" Scenario.seeded))
              (snd (V1.DeleteBucket "b2" (snd (V1.NewBucket "b2" "QmB2" Scenario.seeded)))))
    as (_ & _ & H & _); [discriminate|by do 3 right|].
  destruct (setters_leave_other_buckets "b2" "b1" Scenario.seeded
              (snd (V1.NewBucket "b2" "QmB2" Scenario.seeded)))
    as (_ & _ & H' & _); [discriminate|left; by exists "QmB2"|].
  split; [by rewrite H, H'|by rewrite H'].
Defined.

(** X3: UpdateBucketHash that succeeds makes GetBucketHash answer the
    new hash and keeps every object of the bucket: ObjectExists and
    GetObjectHash answer as before. *)
Theorem UpdateBucketHash_then_GetBucketHash (name hash : string) (le : V1.LedgerStore) :
  fst (V1.UpdateBucketHash name hash le) = Ok tt ->
  V1.GetBucketHash name (snd (V1.UpdateBucketHash name hash le)) = Ok hash /\
  V1.BucketExists name (snd (V1.UpdateBucketHash name hash le)) = true /\
  (forall o, V1.GetObjectHash name o (snd (V1.UpdateBucketHash name hash le))
             = V1.GetObjectHash name o le) /\
  (forall o, V1.ObjectExists name o (snd (V1.UpdateBucketHash name hash le))
             = V1.ObjectExists name o le).
Proof.
  intros (ledger & Hds & Hex & ->)%UpdateBucketHash_ok.
  destruct le as [d]. simpl in Hds. subst d.
  pose proof Hex as Hname. apply bucketExists_true, String_eqb_neq in Hname.
  unfold V1.BucketExists, V1.GetBucketHash, V1.GetObjectHash, V1.ObjectExists,
    V1.getLedger, V1.bucketExists, V1.objectExists. simpl.
  rewrite bucketAt_insert, decide_True by done. simpl.
  rewrite Hname. simpl. repeat split.
Qed.

Lemma UpdateBucketHash_then_GetBucketHash_witness :
  fst (V1.UpdateBucketHash "b1" "QmNew" Scenario.seeded) = Ok tt /\
  V1.GetBucketHash "b1" Scenario.seeded = Ok "QmBucket" /\
  V1.GetBucketHash "b1" (snd (V1.UpdateBucketHash "b1" "QmNew" Scenario.seeded))
    = Ok "QmNew" /\
  V1.GetObjectHash "b1" "k" (snd (V1.UpdateBucketHash "b1" "QmNew" Scenario.seeded))
    = Ok "QmObject".
Proof.
  split; [reflexivity|]. split; [reflexivity|].
  destruct (UpdateBucketHash_then_GetBucketHash "b1" "QmNew" Scenario.seeded)
    as (H1 & _ & H3 & _); [reflexivity|].
  split; [exact H1|]. by rewrite H3.
Defined.

(** X4: AddObjectToBucket of a non-empty object name that succeeds
    makes the object exist with the hash given, whether or not the name
    was there before; the hash of the bucket and every other object of
    the bucket are as before. *)
Theorem AddObjectToBucket_then_GetObjectHash (bucket object hash : string)
  (le : V1.LedgerStore) :
  object <> "" ->
  fst (V1.AddObjectToBucket bucket object hash le) = Ok tt ->
  V1.GetObjectHash bucket object (snd (V1.AddObjectToBucket bucket object hash le))
    = Ok hash /\
  V1.ObjectExists bucket object (snd (V1.AddObjectToBucket bucket object hash le))
    = Ok tt /\
  V1.GetBucketHash bucket (snd (V1.AddObjectToBucket bucket object hash le))
    = V1.GetBucketHash bucket le /\
  (forall o, o <> object ->
     V1.GetObjectHash bucket o (snd (V1.AddObjectToBucket bucket object hash le))
     = V1.GetObjectHash bucket o le).
Proof.
  intros Hne (ledger & Hds & Hex & ->)%AddObjectToBucket_ok.
  destruct le as [d]. simpl in Hds. subst d.
  pose proof Hex as Hname. apply bucketExists_true, String_eqb_neq in Hname.
  unfold V1.GetBucketHash, V1.GetObjectHash, V1.ObjectExists,
    V1.getLedger, V1.objectExists. simpl.
  rewrite bucketAt_insert, decide_True by done. simpl.
  rewrite Hname. unfold V1.objectAt. simpl. rewrite lookup_insert_eq. simpl.
  rewrite (String_eqb_neq _ _ Hne). repeat split.
  intros o Ho. by rewrite lookup_insert_ne.
Qed.

Lemma AddObjectToBucket_then_GetObjectHash_witness :
  "k2" <> "" /\ "k" <> "k2" /\
  fst (V1.AddObjectToBucket "b1" "k2" "QmSecond" Scenario.seeded) = Ok tt /\
  V1.GetObjectHash "b1" "k2"
    (snd (V1.AddObjectToBucket "b1" "k2" "QmSecond" Scenario.seeded)) = Ok "QmSecond" /\
  V1.GetObjectHash "b1" "k"
    (snd (V1.AddObjectToBucket "b1" "k2" "QmSecond" Scenario.seeded)) = Ok "QmObject".
Proof.
  split; [discriminate|]. split; [discriminate|]. split; [reflexivity|].
  destruct (AddObjectToBucket_then_GetObjectHash "b1" "k2" "QmSecond" Scenario.seeded)
    as (H1 & _ & _ & H4); [discriminate|reflexivity|].
  split; [exact H1|]. rewrite H4 by discriminate. reflexivity.
Defined.

(** X5: DeleteBucket succeeds exactly when the bucket exists, whether
    or not it holds objects; afterwards the bucket does not exist, has
    no hash, and each of its objects is reported with the
    bucket-does-not-exist error. *)
Theorem DeleteBucket_then_gone (name : string) (le : V1.LedgerStore) :
  (fst (V1.DeleteBucket name le) = Ok tt <-> V1.BucketExists name le = true) /\
  (fst (V1.DeleteBucket name le) = Ok tt ->
   V1.BucketExists name (snd (V1.DeleteBucket name le)) = false /\
   V1.GetBucketHash name (snd (V1.DeleteBucket name le))
     = Err ErrLedgerBucketDoesNotExist /\
   (forall o, V1.ObjectExists name o (snd (V1.DeleteBucket name le))
              = Err ErrLedgerBucketDoesNotExist) /\
   (forall o, V1.GetObjectHash name o (snd (V1.DeleteBucket name le))
              = Err ErrLedgerBucketDoesNotExist)).
Proof.
  split.
  - unfold V1.DeleteBucket, V1.BucketExists, V1.getLedger, V1.bucketExists.
    destruct (V1.ds le) as [ledger|]; [|done].
    by destruct (String.eqb _ _).
  - intros (ledger & Hds & Hex & ->)%DeleteBucket_ok.
    unfold V1.BucketExists, V1.GetBucketHash, V1.GetObjectHash, V1.ObjectExists,
      V1.getLedger, V1.bucketExists, V1.objectExists. simpl.
    rewrite bucketAt_delete, decide_True by done. simpl. repeat split.
Qed.

Lemma DeleteBucket_then_gone_witness :
  V1.ObjectExists "b1" "k" Scenario.seeded = Ok tt /\
  fst (V1.DeleteBucket "b1" Scenario.seeded) = Ok tt /\
  V1.BucketExists "b1" (snd (V1.DeleteBucket "b1" Scenario.seeded)) = false /\
  V1.ObjectExists "b1" "k" (snd (V1.DeleteBucket "b1" Scenario.seeded))
    = Err ErrLedgerBucketDoesNotExist.
Proof.
  split; [reflexivity|].
  destruct (DeleteBucket_then_gone "b1" Scenario.seeded) as [Hiff Hgone].
  assert (fst (V1.DeleteBucket "b1" Scenario.seeded) = Ok tt) as Hok.
  { apply Hiff. reflexivity. }
  destruct (Hgone Hok) as (H1 & _ & H3 & _).
  split; [exact Hok|]. split; [exact H1|]. apply H3.
Defined.

(** X6: on a ledger without the bucket, UpdateBucketHash,
    AddObjectToBucket, DeleteBucket and RemoveObject fail with the
    bucket-does-not-exist error, GetBucketHash, GetObjectHash and
    GetObjectHashes too, and the store is left as it was. *)
Theorem missing_bucket_is_reported (name object hash : string)
  (ledger : V1.Ledger) (le : V1.LedgerStore) :
  V1.getLedger le = Ok ledger ->
  V1.BucketExists name le = false ->
  V1.UpdateBucketHash name hash le = (Err ErrLedgerBucketDoesNotExist, le) /\
  V1.AddObjectToBucket name object hash le = (Err ErrLedgerBucketDoesNotExist, le) /\
  V1.DeleteBucket name le = (Err ErrLedgerBucketDoesNotExist, le) /\
  V1.RemoveObject name object le = (Err ErrLedgerBucketDoesNotExist, le) /\
  V1.GetBucketHash name le = Err ErrLedgerBucketDoesNotExist /\
  V1.GetObjectHash name object le = Err ErrLedgerBucketDoesNotExist /\
  V1.GetObjectHashes name le = Err ErrLedgerBucketDoesNotExist.
Proof.
  unfold V1.BucketExists, V1.UpdateBucketHash, V1.AddObjectToBucket, V1.DeleteBucket,
    V1.RemoveObject, V1.GetBucketHash, V1.GetObjectHash, V1.GetObjectHashes,
    V1.objectExists.
  intros -> Hex. simpl. rewrite Hex. simpl.
  unfold V1.bucketExists in Hex. apply negb_false_iff in Hex. rewrite Hex.
  repeat split.
Qed.

Lemma missing_bucket_is_reported_witness :
  V1.getLedger Scenario.seeded
    = Ok (V1.mkLedger
            (<["b1" := V1.mkLedgerBucketEntry
                         (<["k" := V1.mkLedgerObjectEntry "k" "QmObject"]> ∅)
                         "b1" "QmBucket"]> ∅)) /\
  V1.BucketExists "nope" Scenario.seeded = false /\
  V1.AddObjectToBucket "nope" "k" "QmObject" Scenario.seeded
    = (Err ErrLedgerBucketDoesNotExist, Scenario.seeded) /\
  V1.GetObjectHashes "nope" Scenario.seeded = Err ErrLedgerBucketDoesNotExist.
Proof.
  assert (V1.getLedger Scenario.seeded
          = Ok (V1.mkLedger
                  (<["b1" := V1.mkLedgerBucketEntry
                               (<["k" := V1.mkLedgerObjectEntry "k" "QmObject"]> ∅)
                               "b1" "QmBucket"]> ∅))) as Hl.
  { vm_compute. reflexivity. }
  split; [exact Hl|]. split; [reflexivity|].
  destruct (missing_bucket_is_reported "nope" "k" "QmObject" _ Scenario.seeded Hl)
    as (_ & H2 & _ & _ & _ & _ & H7); [reflexivity|].
  split; [exact H2|exact H7].
Defined.

(** ** The listings of the first ledger in the states it reaches *)

Section FirstLedgerListings.

Import V1.

Lemma objects_match_bucketAt (ledger : Ledger) (name o : string) (oe : LedgerObjectEntry) :
  objects_match ledger -> be_Objects (bucketAt ledger name) !! o = Some oe ->
  oe_Name oe = o.
Proof.
  intros Hm. unfold bucketAt.
  destruct (Buckets ledger !! name) as [e|] eqn:He; simpl; [by apply (Hm name)|].
  by rewrite lookup_empty.
Qed.

Lemma objects_match_insert (ledger : Ledger) (name : string) (e : LedgerBucketEntry) :
  objects_match ledger ->
  (forall o oe, be_Objects e !! o = Some oe -> oe_Name oe = o) ->
  objects_match (mkLedger (<[name := e]> (Buckets ledger))).
Proof.
  intros Hm He k e' o oe. simpl. rewrite lookup_insert.
  case_decide as Hk; [|apply Hm]. intros [= <-]. apply He.
Qed.

Lemma step_objects_match (le le' : LedgerStore) :
  store_objects_match le -> step le le' -> store_objects_match le'.
Proof.
  intros Hle Hstep. destruct Hstep as
    [name hash le|name hash le|b o le|b o h le|name le].
  - unfold NewBucket, getLedger. destruct (ds le) as [ledger|] eqn:Hds; [|done].
    destruct (bucketExists ledger name); [done|].
    intros ledger' [= <-]. apply objects_match_insert; [by apply Hle|].
    intros o oe. simpl. by rewrite lookup_empty.
  - unfold UpdateBucketHash, getLedger.
    destruct (ds le) as [ledger|] eqn:Hds; [|done].
    destruct (bucketExists ledger name); [|done].
    intros ledger' [= <-]. apply objects_match_insert; [by apply Hle|].
    intros o oe. simpl. apply objects_match_bucketAt. by apply Hle.
  - by rewrite RemoveObject_no_write.
  - unfold AddObjectToBucket, getLedger.
    destruct (ds le) as [ledger|] eqn:Hds; [|done].
    destruct (bucketExists ledger b); [|done].
    intros ledger' [= <-]. apply objects_match_insert; [by apply Hle|].
    intros o' oe. simpl. rewrite lookup_insert. case_decide as Ho.
    + by intros [= <-].
    + apply objects_match_bucketAt. by apply Hle.
  - unfold DeleteBucket, getLedger.
    destruct (ds le) as [ledger|] eqn:Hds; [|done].
    destruct (String.eqb _ _); [done|].
    intros ledger' [= <-] k e o oe. simpl. rewrite lookup_delete.
    case_decide; [done|]. by apply Hle.
Qed.

Lemma reachable_objects_match (le : LedgerStore) :
  reachable le -> store_objects_match le.
Proof.
  induction 1 as [|le le' _ IH Hstep].
  - intros ledger [= <-] k e o oe. simpl. by rewrite lookup_empty.
  - by eapply step_objects_match.
Qed.

(** The ledger is always there in a state the store reaches. *)
Lemma reachable_has_ledger (le : LedgerStore) :
  reachable le -> exists ledger, ds le = Some ledger.
Proof.
  induction 1 as [|le le' _ [ledger Hds] Hstep]; [by eexists|].
  destruct Hstep as [name hash le|name hash le|b o le|b o h le|name le].
  - unfold NewBucket, getLedger. rewrite Hds.
    destruct (bucketExists ledger name); simpl; eauto.
  - unfold UpdateBucketHash, getLedger. rewrite Hds.
    destruct (bucketExists ledger name); simpl; eauto.
  - rewrite RemoveObject_no_write. eauto.
  - unfold AddObjectToBucket, getLedger. rewrite Hds.
    destruct (bucketExists ledger b); simpl; eauto.
  - unfold DeleteBucket, getLedger. rewrite Hds.
    destruct (String.eqb _ _); simpl; eauto.
Qed.

(** The loop of GetObjectHashes over entries stored under their own
    names gives the hash of each entry under its key. *)
Lemma collectHashes_lookup (l : list (string * LedgerObjectEntry))
  (acc : gmap string string) (o : string) :
  NoDup (l.*1) -> Forall (fun kv => oe_Name (snd kv) = fst kv) l ->
  fold_left (fun hashes obj => <[oe_Name obj := oe_IpfsHash obj]> hashes)
    (map snd l) acc !! o
  = match (list_to_map l : gmap string LedgerObjectEntry) !! o with
    | Some oe => Some (oe_IpfsHash oe)
    | None => acc !! o
    end.
Proof.
  revert acc. induction l as [|[k e] l IH]; intros acc Hnd Hall; simpl.
  { by rewrite lookup_empty. }
  apply NoDup_cons in Hnd as [Hk Hnd]. apply Forall_cons in Hall as [He Hall].
  simpl in He. rewrite IH by done. rewrite He.
  destruct (decide (k = o)) as [->|Hne].
  - rewrite lookup_insert_eq.
    rewrite not_elem_of_list_to_map_1 by done. by rewrite lookup_insert_eq.
  - rewrite !lookup_insert_ne by done. done.
Qed.

Lemma collectHashes_match (objs : gmap string LedgerObjectEntry) (o : string) :
  (forall o oe, objs !! o = Some oe -> oe_Name oe = o) ->
  collectHashes (map snd (map_to_list objs)) !! o = oe_IpfsHash <$> objs !! o.
Proof.
  intros Hm. unfold collectHashes. rewrite collectHashes_lookup.
  - rewrite list_to_map_to_list. by destruct (objs !! o).
  - apply NoDup_fst_map_to_list.
  - apply Forall_forall. intros [k e] Hin%elem_of_map_to_list. simpl. by apply Hm.
Qed.

End FirstLedgerListings.

(** X7: in every state the ledger store reaches, GetBucketNames
    succeeds with a list without duplicates, and a non-empty name is in
    the list exactly when BucketExists reports the bucket. *)
Theorem GetBucketNames_lists_the_buckets (le : V1.LedgerStore) :
  V1.reachable le ->
  exists names,
    V1.GetBucketNames le = Ok names /\ NoDup names /\
    forall name, name <> "" -> (name ∈ names <-> V1.BucketExists name le = true).
Proof.
  intros Hr. destruct (reachable_has_ledger le Hr) as [ledger Hds].
  pose proof (reachable_names_match le Hr ledger Hds) as Hm.
  unfold V1.GetBucketNames, V1.BucketExists, V1.getLedger. rewrite Hds. simpl.
  assert (map (fun kv => V1.be_Name (snd kv)) (map_to_list (V1.Buckets ledger))
          = (map_to_list (V1.Buckets ledger)).*1) as ->.
  { apply map_ext_in. intros [k e] Hin%list_elem_of_In%elem_of_map_to_list.
    simpl. by apply Hm. }
  eexists. split; [done|]. split; [apply NoDup_fst_map_to_list|].
  intros name Hne. rewrite bucketExists_true. unfold V1.bucketAt. split.
  - intros [[k e] [-> Hin%elem_of_map_to_list]]%list_elem_of_fmap. simpl.
    rewrite Hin. simpl. by rewrite (Hm _ _ Hin).
  - destruct (V1.Buckets ledger !! name) as [e|] eqn:He; simpl; [|done].
    intros _. apply list_elem_of_fmap. exists (name, e). split; [done|].
    by apply elem_of_map_to_list.
Qed.

Lemma GetBucketNames_lists_the_buckets_witness :
  V1.reachable Scenario.seeded /\
  V1.GetBucketNames Scenario.seeded = Ok ["b1"] /\
  exists names,
    V1.GetBucketNames Scenario.seeded = Ok names /\ NoDup names /\
    ("b1" ∈ names <-> V1.BucketExists "b1" Scenario.seeded = true).
Proof.
  assert (V1.reachable Scenario.seeded) as Hr.
  { eapply V1.reachable_step; [eapply V1.reachable_step; [apply V1.reachable_new|]|].
    - apply (V1.step_NewBucket "b1" "QmBucket").
    - apply (V1.step_AddObjectToBucket "b1" "k" "QmObject"). }
  split; [exact Hr|]. split; [vm_compute; reflexivity|].
  destruct (GetBucketNames_lists_the_buckets Scenario.seeded Hr)
    as (names & H1 & H2 & H3).
  exists names. split; [exact H1|]. split; [exact H2|]. apply H3. discriminate.
Defined.

(** X8: in every state the ledger store reaches, GetObjectHashes of a
    bucket that exists succeeds, and it maps a non-empty object name to
    a hash exactly when GetObjectHash answers that hash for the
    object. *)
Theorem GetObjectHashes_agrees_with_GetObjectHash (bucket : string)
  (le : V1.LedgerStore) :
  V1.reachable le ->
  V1.BucketExists bucket le = true ->
  exists hashes,
    V1.GetObjectHashes bucket le = Ok hashes /\
    forall o h, o <> "" ->
      (hashes !! o = Some h <-> V1.GetObjectHash bucket o le = Ok h).
Proof.
  intros Hr Hex. destruct (reachable_has_ledger le Hr) as [ledger Hds].
  pose proof (reachable_objects_match le Hr ledger Hds) as Hm.
  unfold V1.GetObjectHashes, V1.GetObjectHash, V1.BucketExists, V1.getLedger in *.
  rewrite Hds in *. simpl. rewrite Hex. simpl.
  eexists. split; [done|]. intros o h Hne.
  apply bucketExists_true, String_eqb_neq in Hex. rewrite Hex.
  rewrite collectHashes_match by (intros; by eapply objects_match_bucketAt).
  unfold V1.objectAt.
  destruct (V1.be_Objects (V1.bucketAt ledger bucket) !! o) as [oe|] eqn:Ho; simpl.
  - rewrite (objects_match_bucketAt _ _ _ _ Hm Ho), (String_eqb_neq _ _ Hne).
    split; congruence.
  - split; [done|]. simpl. done.
Qed.

Lemma GetObjectHashes_agrees_with_GetObjectHash_witness :
  V1.reachable Scenario.seeded /\
  V1.BucketExists "b1" Scenario.seeded = true /\
  V1.GetObjectHashes "b1" Scenario.seeded = Ok (<["k" := "QmObject"]> ∅) /\
  exists hashes,
    V1.GetObjectHashes "b1" Scenario.seeded = Ok hashes /\
    (hashes !! "k" = Some "QmObject"
     <-> V1.GetObjectHash "b1" "k" Scenario.seeded = Ok "QmObject").
Proof.
  assert (V1.reachable Scenario.seeded) as Hr.
  { eapply V1.reachable_step; [eapply V1.reachable_step; [apply V1.reachable_new|]|].
    - apply (V1.step_NewBucket "b1" "QmBucket").
    - apply (V1.step_AddObjectToBucket "b1" "k" "QmObject"). }
  split; [exact Hr|]. split; [reflexivity|]. split; [vm_compute; reflexivity|].
  destruct (GetObjectHashes_agrees_with_GetObjectHash "b1" Scenario.seeded Hr eq_refl)
    as (hashes & H1 & H2).
  exists hashes. split; [exact H1|]. apply H2. discriminate.
Defined.

(** ** The S3 operations over the first ledger *)

Section FirstGateway.

Import V1.

Variable ipfs : Type.
Variable objectToIPFS : Object -> ipfs -> result string * ipfs.
Variable addObjectToBucketAndIPFS :
  string -> string -> string -> LedgerStore -> ipfs -> result string * ipfs.
Variable getMinioObjectInfo : string -> string -> LedgerStore -> ipfs -> result ObjectInfo.

(** UpdateBucketHash keeps the objects of every bucket. *)
Lemma UpdateBucketHash_keeps_objects (name hash b o : string) (le : LedgerStore) :
  ObjectExists b o (snd (UpdateBucketHash name hash le)) = ObjectExists b o le /\
  GetObjectHash b o (snd (UpdateBucketHash name hash le)) = GetObjectHash b o le.
Proof.
  unfold UpdateBucketHash, getLedger.
  destruct le as [[ledger|]]; simpl; [|done].
  destruct (bucketExists ledger name) eqn:Hex; simpl; [|done].
  unfold ObjectExists, GetObjectHash, getLedger, objectExists. simpl.
  rewrite bucketAt_insert. case_decide as Hb; [|done]. subst b. done.
Qed.

(** What AddObjectToBucket of a non-empty name leaves. *)
Lemma AddObjectToBucket_sets_object (bucket object hash : string) (le le' : LedgerStore) :
  object <> "" ->
  AddObjectToBucket bucket object hash le = (Ok tt, le') ->
  ObjectExists bucket object le' = Ok tt /\
  GetObjectHash bucket object le' = Ok hash /\
  GetBucketHash bucket le' = GetBucketHash bucket le.
Proof.
  intros Hne Hadd.
  assert (fst (AddObjectToBucket bucket object hash le) = Ok tt) as Hok
    by (by rewrite Hadd).
  apply AddObjectToBucket_ok in Hok as (ledger & Hds & Hex & Hsnd).
  rewrite Hadd in Hsnd. simpl in Hsnd. subst le'.
  destruct le as [d]. simpl in Hds. subst d.
  apply bucketExists_true, String_eqb_neq in Hex.
  unfold GetBucketHash, GetObjectHash, ObjectExists, getLedger, objectExists. simpl.
  rewrite bucketAt_insert, decide_True by done. simpl.
  rewrite Hex. unfold objectAt. simpl. rewrite lookup_insert_eq. simpl.
  by rewrite (String_eqb_neq _ _ Hne).
Qed.





End FirstGateway.



(** X10: CopyObject of the first gateway updates the hash of the
    destination bucket and nothing else in the ledger: whatever it
    returns, ObjectExists and GetObjectHash answer for every object of
    every bucket as before. So a copy to a name the ledger does not
    hold leaves GetObject of the destination failing as before. *)
Theorem CopyObject_adds_no_object_to_the_ledger (ipfs : Type)
  (addObjectToBucketAndIPFS :
     string -> string -> string -> V1.LedgerStore -> ipfs -> result string * ipfs)
  (objectFromBucket : string -> string -> V1.LedgerStore -> ipfs -> result V1.Object)
  (getMinioObjectInfo : string -> string -> V1.LedgerStore -> ipfs -> result ObjectInfo)
  (srcBucket srcObject dstBucket dstObject : string) (x : V1.xObjects ipfs) :
  (forall b o,
     V1.ObjectExists b o
       (V1.ledgerStore ipfs
          (snd (V1.CopyObject ipfs addObjectToBucketAndIPFS getMinioObjectInfo
                  srcBucket srcObject dstBucket dstObject x)))
     = V1.ObjectExists b o (V1.ledgerStore ipfs x) /\
     V1.GetObjectHash b o
       (V1.ledgerStore ipfs
          (snd (V1.CopyObject ipfs addObjectToBucketAndIPFS getMinioObjectInfo
                  srcBucket srcObject dstBucket dstObject x)))
     = V1.GetObjectHash b o (V1.ledgerStore ipfs x)) /\
  (forall e,
     V1.ObjectExists dstBucket dstObject (V1.ledgerStore ipfs x) = Err e ->
     V1.GetObject ipfs objectFromBucket dstBucket dstObject
       (snd (V1.CopyObject ipfs addObjectToBucketAndIPFS getMinioObjectInfo
               srcBucket srcObject dstBucket dstObject x))
     = Err (toMinioErr e)).
Proof.
  assert (forall b o,
     V1.ObjectExists b o
       (V1.ledgerStore ipfs
          (snd (V1.CopyObject ipfs addObjectToBucketAndIPFS getMinioObjectInfo
                  srcBucket srcObject dstBucket dstObject x)))
     = V1.ObjectExists b o (V1.ledgerStore ipfs x) /\
     V1.GetObjectHash b o
       (V1.ledgerStore ipfs
          (snd (V1.CopyObject ipfs addObjectToBucketAndIPFS getMinioObjectInfo
                  srcBucket srcObject dstBucket dstObject x)))
     = V1.GetObjectHash b o (V1.ledgerStore ipfs x)) as Hsame.
  { intros b o. unfold V1.CopyObject.
    destruct (negb (V1.BucketExists srcBucket _)); [done|].
    destruct (negb (V1.BucketExists dstBucket _)); [done|].
    destruct (V1.GetObjectHash srcBucket srcObject _) as [objHash| |]; [|done|done].
    destruct (addObjectToBucketAndIPFS _ _ _ _ _) as [[dstBucketHash| |] node1];
      [|done|done].
    pose proof (UpdateBucketHash_keeps_objects dstBucket dstBucketHash b o
                  (V1.ledgerStore ipfs x)) as Hkeep.
    by destruct (V1.UpdateBucketHash dstBucket dstBucketHash (V1.ledgerStore ipfs x))
      as [[[]| |] le1]. }
  split; [exact Hsame|].
  intros e He. unfold V1.GetObject.
  destruct (Hsame dstBucket dstObject) as [-> _]. by rewrite He.
Qed.

Lemma CopyObject_adds_no_object_to_the_ledger_witness :
  fst (V1.CopyObject unit Scenario.okAddObjectToBucketAndIPFS
         Scenario.okGetMinioObjectInfo "b1" "k" "b1" "copy" Scenario.gateway1)
    = Ok (mkObjectInfo "b1" "copy" 0 5 "" "" "" "") /\
  V1.ObjectExists "b1" "copy" (V1.ledgerStore unit Scenario.gateway1)
    = Err ErrLedgerObjectDoesNotExist /\
  V1.GetObject unit Scenario.okObjectFromBucket "b1" "copy"
    (snd (V1.CopyObject unit Scenario.okAddObjectToBucketAndIPFS
            Scenario.okGetMinioObjectInfo "b1" "k" "b1" "copy" Scenario.gateway1))
    = Err ObjectNotFound.
Proof.
  split; [reflexivity|]. split; [reflexivity|].
  apply (proj2 (CopyObject_adds_no_object_to_the_ledger unit
                  Scenario.okAddObjectToBucketAndIPFS Scenario.okObjectFromBucket
                  Scenario.okGetMinioObjectInfo "b1" "k" "b1" "copy"
                  Scenario.gateway1) ErrLedgerObjectDoesNotExist).
  reflexivity.
Defined.

(** RemoveObject answers what ObjectExists answers, which is never a
    panic, and writes nothing. *)
Lemma RemoveObject_is_ObjectExists (bucket object : string) (le : V1.LedgerStore) :
  V1.RemoveObject bucket object le = (V1.ObjectExists bucket object le, le) /\
  faults (V1.ObjectExists bucket object le) = false.
Proof.
  unfold V1.RemoveObject, V1.ObjectExists, V1.getLedger, V1.objectExists.
  destruct (V1.ds le) as [ledger|]; simpl; [|done].
  destruct (String.eqb _ _); simpl; [done|].
  by destruct (String.eqb _ _).
Qed.

(** X11: DeleteObjects of the first gateway never fails as a whole and
    returns one entry per name asked, in order: no error for a name
    ObjectExists finds, the converted error of ObjectExists otherwise;
    and it leaves the gateway as it was, every object included. *)
Theorem DeleteObjects_reports_and_keeps (ipfs : Type) (bucket : string)
  (objects : list string) (x : V1.xObjects ipfs) :
  V1.DeleteObjects ipfs bucket objects x
  = (Ok (map (fun object =>
                match V1.ObjectExists bucket object (V1.ledgerStore ipfs x) with
                | Err e => Some (toMinioErr e)
                | _ => None
                end) objects),
     x).
Proof.
  destruct x as [le node].
  induction objects as [|object objects IH]; simpl; [done|].
  destruct (RemoveObject_is_ObjectExists bucket object le) as [-> Hnf].
  destruct (V1.ObjectExists bucket object le) as [[]|e|p]; [| |done];
    by rewrite IH.
Qed.

(** The loop over the user-defined metadata sets the four content
    fields only. *)
Lemma setUserDefined_identity (obinfo : ObjectInfo) (kv : string * string) :
  Bucket (setUserDefined obinfo kv) = Bucket obinfo /\
  Name (setUserDefined obinfo kv) = Name obinfo /\
  ModTime (setUserDefined obinfo kv) = ModTime obinfo.
Proof.
  unfold setUserDefined. by repeat (destruct (String.eqb _ _); [done|]).
Qed.

Lemma applyUserDefined_identity (UserDefined : list (string * string))
  (obinfo : ObjectInfo) :
  Bucket (applyUserDefined obinfo UserDefined) = Bucket obinfo /\
  Name (applyUserDefined obinfo UserDefined) = Name obinfo /\
  ModTime (applyUserDefined obinfo UserDefined) = ModTime obinfo.
Proof.
  unfold applyUserDefined. revert obinfo.
  induction UserDefined as [|kv rest IH]; intros obinfo; simpl; [done|].
  destruct (IH (setUserDefined obinfo kv)) as (-> & -> & ->).
  apply setUserDefined_identity.
Qed.

(** X12: PutObject of the first gateway. On a bucket that does not
    exist it fails with BucketNotFound before anything is sent to the
    remote node, and changes nothing. When it succeeds for a non-empty
    object name, the object exists in the ledger under the hash the
    remote node returned for the object with the data, the size
    [len(data)] and the time of the call, and the bucket has the hash
    the remote node returned for the updated bucket. *)
Theorem PutObject_records_object_in_ledger (ipfs : Type)
  (objectToIPFS : V1.Object -> ipfs -> result string * ipfs)
  (addObjectToBucketAndIPFS :
     string -> string -> string -> V1.LedgerStore -> ipfs -> result string * ipfs)
  (getMinioObjectInfo : string -> string -> V1.LedgerStore -> ipfs -> result ObjectInfo)
  (bucket object : string) (data : list byte) (UserDefined : list (string * string))
  (now : Z) (x : V1.xObjects ipfs) :
  (V1.BucketExists bucket (V1.ledgerStore ipfs x) = false ->
   V1.PutObject ipfs objectToIPFS addObjectToBucketAndIPFS getMinioObjectInfo
     bucket object data UserDefined now x = (Err BucketNotFound, x)) /\
  (forall info x',
     object <> "" ->
     V1.PutObject ipfs objectToIPFS addObjectToBucketAndIPFS getMinioObjectInfo
       bucket object data UserDefined now x = (Ok info, x') ->
     exists obinfo objectHash node1 bucketHash node2,
       Bucket obinfo = bucket /\ Name obinfo = object /\
       ModTime obinfo = now /\ Size_ obinfo = len data /\
       objectToIPFS (V1.mkObject data obinfo) (V1.dagClient ipfs x)
         = (Ok objectHash, node1) /\
       addObjectToBucketAndIPFS object objectHash bucket (V1.ledgerStore ipfs x) node1
         = (Ok bucketHash, node2) /\
       V1.dagClient ipfs x' = node2 /\
       V1.ObjectExists bucket object (V1.ledgerStore ipfs x') = Ok tt /\
       V1.GetObjectHash bucket object (V1.ledgerStore ipfs x') = Ok objectHash /\
       V1.GetBucketHash bucket (V1.ledgerStore ipfs x') = Ok bucketHash).
Proof.
  split.
  { intros Hex. unfold V1.PutObject. by rewrite Hex. }
  intros info x' Hne. unfold V1.PutObject.
  destruct (negb _); [done|].
  set (obinfo := setSize _ _).
  destruct (objectToIPFS _ _) as [[objectHash| |] node1] eqn:Hobj; [|done|done].
  simpl.
  destruct (addObjectToBucketAndIPFS _ _ _ _ _) as [[bucketHash| |] node2] eqn:Hbk;
    [|done|done].
  destruct (V1.UpdateBucketHash _ _ _) as [[[]| |] le1] eqn:Hup; [|done|done].
  destruct (V1.AddObjectToBucket _ _ _ _) as [[[]| |] le2] eqn:Hadd; [|done|done].
  intros [= _ <-]. simpl.
  exists obinfo, objectHash, node1, bucketHash, node2.
  destruct (applyUserDefined_identity UserDefined
              (mkObjectInfo bucket object now 0 "" "" "" "")) as (Hb & Hn & Ht).
  split; [exact Hb|]. split; [exact Hn|]. split; [exact Ht|].
  split; [done|]. split; [exact Hobj|]. split; [exact Hbk|]. split; [done|].
  destruct (AddObjectToBucket_sets_object _ _ _ _ _ Hne Hadd) as (H1 & H2 & H3).
  split; [exact H1|]. split; [exact H2|]. rewrite H3.
  assert (fst (V1.UpdateBucketHash bucket bucketHash (V1.ledgerStore ipfs x)) = Ok tt)
    as Hok by (by rewrite Hup).
  apply UpdateBucketHash_ok in Hok as (ledger & Hds & Hex & Hsnd).
  rewrite Hup in Hsnd. simpl in Hsnd. subst le1.
  apply bucketExists_true, String_eqb_neq in Hex.
  unfold V1.GetBucketHash, V1.getLedger. simpl.
  rewrite bucketAt_insert, decide_True by done. simpl. by rewrite Hex.
Qed.

Lemma PutObject_records_object_in_ledger_witness :
  V1.BucketExists "nope" (V1.ledgerStore unit Scenario.gateway1) = false /\
  V1.PutObject unit Scenario.okObjectToIPFS Scenario.okAddObjectToBucketAndIPFS
    Scenario.okGetMinioObjectInfo "nope" "k" Scenario.hello [] 7 Scenario.gateway1
    = (Err BucketNotFound, Scenario.gateway1) /\
  fst (V1.PutObject unit Scenario.okObjectToIPFS Scenario.okAddObjectToBucketAndIPFS
         Scenario.okGetMinioObjectInfo "b1" "k2" Scenario.hello [] 7 Scenario.gateway1)
    = Ok (mkObjectInfo "b1" "k2" 0 5 "" "" "" "") /\
  V1.ObjectExists "b1" "k2"
    (V1.ledgerStore unit
       (snd (V1.PutObject unit Scenario.okObjectToIPFS
               Scenario.okAddObjectToBucketAndIPFS Scenario.okGetMinioObjectInfo
               "b1" "k2" Scenario.hello [] 7 Scenario.gateway1))) = Ok tt /\
  V1.GetBucketHash "b1"
    (V1.ledgerStore unit
       (snd (V1.PutObject unit Scenario.okObjectToIPFS
               Scenario.okAddObjectToBucketAndIPFS Scenario.okGetMinioObjectInfo
               "b1" "k2" Scenario.hello [] 7 Scenario.gateway1))) = Ok "QmBucket2".
Proof.
  destruct (PutObject_records_object_in_ledger unit Scenario.okObjectToIPFS
              Scenario.okAddObjectToBucketAndIPFS Scenario.okGetMinioObjectInfo
              "nope" "k" Scenario.hello [] 7 Scenario.gateway1) as [Hmiss _].
  destruct (PutObject_records_object_in_ledger unit Scenario.okObjectToIPFS
              Scenario.okAddObjectToBucketAndIPFS Scenario.okGetMinioObjectInfo
              "b1" "k2" Scenario.hello [] 7 Scenario.gateway1) as [_ Hput].
  split; [reflexivity|]. split; [apply Hmiss; reflexivity|].
  split; [reflexivity|].
  destruct (Hput (mkObjectInfo "b1" "k2" 0 5 "" "" "" "")
              (snd (V1.PutObject unit Scenario.okObjectToIPFS
                      Scenario.okAddObjectToBucketAndIPFS
                      Scenario.okGetMinioObjectInfo
                      "b1" "k2" Scenario.hello [] 7 Scenario.gateway1))
              ltac:(discriminate) eq_refl)
    as (obinfo & objectHash & node1 & bucketHash & node2 & _ & _ & _ & _ & _ & Hbk
        & _ & H1 & _ & H3).
  split; [exact H1|].
  assert (bucketHash = "QmBucket2") as <- by (by injection Hbk as <- _).
  exact H3.
Defined.

(** ** The listing of the second ledger *)

Section Listing.

Import V2.

Variable cid_of : Block -> string.

(** With the bucket in the cache, the loop that loads the object infos
    leaves the store as it is and reads, for each name, the info
    ledgerStore.ObjectInfo reads. *)
Lemma loadInfos_ok (bucket : string) (b : BucketRecord) (names : list string)
  (infos : list ObjectInfo) (ls ls' : ledgerStore) :
  cache ls !! bucket = Some b ->
  loadInfos cid_of bucket names ls = (Ok infos, ls') ->
  ls' = ls /\
  Forall2 (fun name info => ls_ObjectInfo cid_of bucket name ls = (Ok info, ls))
    names infos.
Proof.
  intros Hc. revert infos ls'.
  induction names as [|name names IH]; intros infos ls'; simpl.
  { intros [= <- <-]. by split. }
  unfold mbind at 1.
  destruct (object cid_of bucket name ls) as [[o| |] ls1] eqn:Ho; try done.
  assert (ls1 = ls) as ->.
  { apply object_ok in Ho as (b' & c & obj & Hb & _).
    rewrite (getBucketLoaded_cached cid_of _ _ _ Hc) in Hb. congruence. }
  unfold mbind at 1.
  destruct (loadInfos cid_of bucket names ls) as [[rest| |] ls2] eqn:Hrest; try done.
  destruct (IH rest ls2 eq_refl) as [-> Hall].
  intros [= <- <-]. split; [done|]. constructor; [|done].
  unfold ls_ObjectInfo, mbind. rewrite Ho.
  apply object_ok in Ho as (_ & _ & obj & _ & _ & _ & ->). done.
Qed.

Lemma selectNames_complete (objs : gmap string string) (prefix startsFrom name : string)
  (max : Z) :
  max <= 0 -> is_Some (objs !! name) -> keepName prefix startsFrom name = true ->
  name ∈ selectNames objs prefix startsFrom max.
Proof.
  intros Hmax [c Hc] Hk. unfold selectNames.
  replace (max >? 0) with false by lia. simpl.
  unfold sort_Strings. rewrite merge_sort_Permutation.
  apply list_elem_of_In, filter_In. split; [|done].
  apply in_map_iff. exists (name, c). split; [done|].
  by apply list_elem_of_In, elem_of_map_to_list.
Qed.

Lemma GetObjectInfos_ok (bucket prefix startsFrom : string) (max : Z)
  (infos : list ObjectInfo) (ls ls' : ledgerStore) :
  GetObjectInfos cid_of bucket prefix startsFrom max ls = (Ok infos, ls') ->
  exists b,
    getBucketLoaded cid_of bucket ls = (Ok b, ls') /\
    Forall2 (fun name info => ls_ObjectInfo cid_of bucket name ls' = (Ok info, ls'))
      (selectNames (Objects b) prefix startsFrom max) infos.
Proof.
  unfold GetObjectInfos, mbind.
  destruct (getBucketLoaded cid_of bucket ls) as [[b| |] ls1] eqn:Hb; try done.
  intros Hload. exists b.
  pose proof (getBucketLoaded_post cid_of _ _ _ _ Hb) as (Hc & _).
  apply (loadInfos_ok _ _ _ _ _ _ Hc) in Hload as [-> Hall]. by split.
Qed.

End Listing.

(** X13: when GetObjectInfos succeeds, the infos it returns are, in
    order, those ledgerStore.ObjectInfo reads for a list of names that
    is in strict ascending order, holds only objects of the bucket that
    start with the prefix and do not come after [startsFrom], has at
    most [max] names when [max] is positive, and for [max <= 0] holds
    every such object of the bucket. *)
Theorem GetObjectInfos_returns_sorted_selection (cid_of : V2.Block -> string)
  (bucket prefix startsFrom : string) (max : Z) (infos : list ObjectInfo)
  (ls ls' : V2.ledgerStore) :
  V2.GetObjectInfos cid_of bucket prefix startsFrom max ls = (Ok infos, ls') ->
  exists objs names,
    V2.GetObjectHashes cid_of bucket ls = (Ok objs, ls') /\
    Forall2 (fun name info => V2.ls_ObjectInfo cid_of bucket name ls' = (Ok info, ls'))
      names infos /\
    StronglySorted string_lt names /\
    (forall name, name ∈ names ->
       is_Some (objs !! name) /\ strings_HasPrefix name prefix = true /\
       string_le name startsFrom) /\
    (0 < max -> len infos <= max) /\
    (max <= 0 ->
     forall name, is_Some (objs !! name) -> strings_HasPrefix name prefix = true ->
       string_le name startsFrom -> name ∈ names).
Proof.
  intros (b & Hb & Hall)%GetObjectInfos_ok.
  exists (V2.Objects b), (V2.selectNames (V2.Objects b) prefix startsFrom max).
  split. { unfold V2.GetObjectHashes, V2.mbind. by rewrite Hb. }
  split; [exact Hall|]. split; [apply selectNames_ascending|].
  split; [|split].
  - intros name Hin. split; [by eapply elem_of_selectNames|].
    split; [by eapply selectNames_prefix|by eapply selectNames_le_startsFrom].
  - intros Hmax. unfold len. rewrite <- (Forall2_length _ _ _ Hall).
    by apply selectNames_max.
  - intros Hmax name Hsome Hp Hle. apply selectNames_complete; [done|done|].
    unfold V2.keepName. rewrite Hp. simpl. by apply strings_Compare_ge.
Qed.

Lemma GetObjectInfos_returns_sorted_selection_witness :
  V2.GetObjectInfos IdentityCid.identityCid "b1" "" "z" 0 Scenario.withK
    = (Ok [mkObjectInfo "b1" "k" 0 5 "" "" "" ""], Scenario.withK) /\
  exists objs names,
    V2.GetObjectHashes IdentityCid.identityCid "b1" Scenario.withK
      = (Ok objs, Scenario.withK) /\
    Forall2 (fun name info =>
               V2.ls_ObjectInfo IdentityCid.identityCid "b1" name Scenario.withK
               = (Ok info, Scenario.withK))
      names [mkObjectInfo "b1" "k" 0 5 "" "" "" ""] /\
    StronglySorted string_lt names.
Proof.
  assert (V2.GetObjectInfos IdentityCid.identityCid "b1" "" "z" 0 Scenario.withK
          = (Ok [mkObjectInfo "b1" "k" 0 5 "" "" "" ""], Scenario.withK)) as Hget.
  { vm_compute. reflexivity. }
  split; [exact Hget|].
  destruct (GetObjectInfos_returns_sorted_selection _ _ _ _ _ _ _ _ Hget)
    as (objs & names & H1 & H2 & H3 & _).
  exists objs, names. auto.
Defined.

(** X14: ListObjectsV2 of the second gateway never returns more than
    1000 objects, whatever [maxKeys] is asked. *)
Theorem ListObjectsV2_at_most_1000 (cid_of : V2.Block -> string)
  (bucket prefix continuationToken delimiter startAfter : string) (maxKeys : Z)
  (fetchOwner : bool) (infos : list ObjectInfo) (ls ls' : V2.ledgerStore) :
  V2.ListObjectsV2 cid_of bucket prefix continuationToken delimiter maxKeys
    fetchOwner startAfter ls = (Ok infos, ls') ->
  len infos <= 1000.
Proof.
  intros Hl%convertErr_ok. apply GetObjectInfos_ok in Hl as (b & _ & Hall).
  unfold len. rewrite <- (Forall2_length _ _ _ Hall).
  by apply selectNames_max.
Qed.

Lemma ListObjectsV2_at_most_1000_witness :
  V2.ListObjectsV2 IdentityCid.identityCid "b1" "" "" "" 5000 false "z" Scenario.withK
    = (Ok [mkObjectInfo "b1" "k" 0 5 "" "" "" ""], Scenario.withK) /\
  len [mkObjectInfo "b1" "k" 0 5 "" "" "" ""] <= 1000.
Proof.
  assert (V2.ListObjectsV2 IdentityCid.identityCid "b1" "" "" "" 5000 false "z"
            Scenario.withK
          = (Ok [mkObjectInfo "b1" "k" 0 5 "" "" "" ""], Scenario.withK)) as Hl.
  { vm_compute. reflexivity. }
  split; [exact Hl|].
  exact (ListObjectsV2_at_most_1000 _ _ _ _ _ _ _ _ _ _ _ Hl).
Defined.

(** ** Ranges, object infos and uploads of the second gateway *)

(** X15: for the data ObjectData reads and a range of non-negative
    offset and length whose end is below 2^63, GetObject fails with
    InvalidRange (carrying the offset, the end and the size) exactly
    when the end exceeds the size, and otherwise writes [length] bytes:
    byte [i] written is byte [startOffset + i] of the object. *)
Theorem GetObject_valid_range (cid_of : V2.Block -> string) (bucket name : string)
  (startOffset length : Z) (ls ls' : V2.ledgerStore) (objData : list byte) :
  V2.ObjectData cid_of bucket name ls = (Ok objData, ls') ->
  0 <= startOffset -> 0 <= length -> startOffset + length < 2 ^ 63 ->
  (len objData < startOffset + length ->
   V2.GetObject cid_of bucket name startOffset length ls
   = (Err (InvalidRange startOffset (startOffset + length) (len objData)), ls')) /\
  (startOffset + length <= len objData ->
   exists written,
     V2.GetObject cid_of bucket name startOffset length ls = (Ok written, ls') /\
     len written = length /\
     forall i, (i < Z.to_nat length)%nat ->
       written !! i = objData !! (Z.to_nat startOffset + i)%nat).
Proof.
  intros Hdata Hs Hl Hend.
  rewrite (GetObject_range_nonneg cid_of bucket name startOffset length ls ls'
             objData Hdata Hs Hl Hend).
  split.
  - intros Hlt. by rewrite (proj2 (Z.ltb_lt _ _) Hlt).
  - intros Hle. rewrite (proj2 (Z.ltb_ge _ _) Hle). eexists. split; [done|].
    unfold len in *. split.
    + rewrite length_take, length_drop. lia.
    + intros i Hi. by rewrite lookup_take_lt, lookup_drop.
Qed.

Lemma GetObject_valid_range_witness :
  V2.ObjectData IdentityCid.identityCid "b1" "k" Scenario.withK
    = (Ok Scenario.hello, Scenario.withK) /\
  V2.GetObject IdentityCid.identityCid "b1" "k" 1 3 Scenario.withK
    = (Ok [x65; x6c; x6c], Scenario.withK) /\
  V2.GetObject IdentityCid.identityCid "b1" "k" 3 3 Scenario.withK
    = (Err (InvalidRange 3 (3 + 3) (len Scenario.hello)), Scenario.withK) /\
  exists written,
    V2.GetObject IdentityCid.identityCid "b1" "k" 1 3 Scenario.withK
      = (Ok written, Scenario.withK) /\
    len written = 3.
Proof.
  assert (V2.ObjectData IdentityCid.identityCid "b1" "k" Scenario.withK
          = (Ok Scenario.hello, Scenario.withK)) as Hdata.
  { vm_compute. reflexivity. }
  split; [exact Hdata|]. split; [vm_compute; reflexivity|].
  destruct (GetObject_valid_range IdentityCid.identityCid "b1" "k" 3 3 _ _ _ Hdata)
    as [Hinv _]; [lia|lia|lia|].
  destruct (GetObject_valid_range IdentityCid.identityCid "b1" "k" 1 3 _ _ _ Hdata)
    as [_ Hok]; [lia|lia|lia|].
  split; [apply Hinv; vm_compute; reflexivity|].
  destruct Hok as (written & H1 & H2 & _); [vm_compute; discriminate|].
  exists written. auto.
Defined.






Section Uploads.

Import V2.

Lemma uploadsFresh_New (id : string) (info : ObjectInfo) (ls : ledgerStore) :
  uploadsFresh (l ls) -> uploadsFresh (l (snd (NewMultipartUpload id info ls))).
Proof.
  intros Hf. unfold NewMultipartUpload, mbind.
  destruct (assertBucketExits (Bucket info) ls) as [[[]| |] ls1] eqn:Ha; try done.
  - apply assertBucketExits_inv in Ha as [-> _]. simpl.
    intros uploads id' up [= <-]. rewrite lookup_insert. case_decide as Hid.
    + intros [= <-]. by subst.
    + destruct (MultipartUploads (l ls)) as [old|] eqn:Hold; simpl.
      * by apply Hf.
      * by rewrite lookup_empty.
  - unfold assertBucketExits, bucketExists, mbind, ret, throw in Ha.
    case_bool_decide; by injection Ha as _ <-.
  - unfold assertBucketExits, bucketExists, mbind, ret, throw in Ha.
    by case_bool_decide.
Qed.

Lemma assertBucketExits_state (bucket : string) (ls : ledgerStore) :
  snd (assertBucketExits bucket ls) = ls.
Proof.
  unfold assertBucketExits, bucketExists, mbind, ret, throw. by case_bool_decide.
Qed.

Lemma uploadsFresh_Put (b o h id : string) (n : Z) (ls : ledgerStore) :
  uploadsFresh (l ls) -> uploadsFresh (l (snd (PutObjectPart b o h id n ls))).
Proof.
  intros Hf. unfold PutObjectPart, mbind.
  pose proof (assertBucketExits_state b ls) as Hs.
  destruct (assertBucketExits b ls) as [[[]| |] ls1]; simpl in Hs; subst ls1;
    try done.
  destruct (uploadAt (l ls) id) as [mpart|] eqn:Hup; [|done].
  unfold uploadAt in Hup.
  destruct (MultipartUploads (l ls)) as [uploads|] eqn:Hu; [|done].
  destruct (Hf uploads id mpart Hu Hup) as [_ Hparts]. by rewrite Hparts.
Qed.

Lemma uploadsFresh_Abort (b id : string) (ls : ledgerStore) :
  uploadsFresh (l ls) -> uploadsFresh (l (snd (AbortMultipartUpload b id ls))).
Proof.
  intros Hf. unfold AbortMultipartUpload, mbind, bucketExists, liftLedger, throw.
  case_bool_decide; simpl; [|done].
  destruct (multipartExists (l ls) id) as [[]| |]; simpl; [|done|done].
  intros uploads id' up. unfold deleteMultipartID. simpl.
  destruct (MultipartUploads (l ls)) as [old|] eqn:Hold; simpl; [|done].
  intros [= <-]. rewrite lookup_delete. case_decide; [done|]. by apply Hf.
Qed.

Lemma uploadsReachable_fresh (ls : ledgerStore) :
  uploadsReachable ls -> uploadsFresh (l ls).
Proof.
  induction 1 as [ls Hnone|ls ls' _ IH Hstep].
  - intros uploads id up. by rewrite Hnone.
  - destruct Hstep as [id info ls|b o h id n ls|b id ls|ls ls' Hl].
    + by apply uploadsFresh_New.
    + by apply uploadsFresh_Put.
    + by apply uploadsFresh_Abort.
    + by rewrite Hl.
Qed.

End Uploads.

(** X17: in every store reached from one whose uploads map was never
    allocated, no upload has a part: PutObjectPart never succeeds,
    whatever its arguments, GetObjectParts returns the nil map when it
    succeeds, and for a non-empty id MultipartIDExists succeeds exactly
    when the registry holds an upload under the id. *)
Theorem uploads_never_hold_parts (ls : V2.ledgerStore) :
  V2.uploadsReachable ls ->
  (forall bucketName objectName partHash multipartID partNumber,
     fst (V2.PutObjectPart bucketName objectName partHash multipartID partNumber ls)
     <> Ok tt) /\
  (forall id parts, fst (V2.GetObjectParts id ls) = Ok parts -> parts = None) /\
  (forall id, id <> "" ->
     (fst (V2.MultipartIDExists id ls) = Ok tt
      <-> is_Some (V2.uploadAt (V2.l ls) id))).
Proof.
  intros Hf%uploadsReachable_fresh. split; [|split].
  - intros b o h id n. unfold V2.PutObjectPart, V2.mbind.
    pose proof (assertBucketExits_state b ls) as Hs.
    destruct (V2.assertBucketExits b ls) as [[[]| |] ls1]; simpl in Hs; subst ls1;
      try done.
    destruct (V2.uploadAt (V2.l ls) id) as [mpart|] eqn:Hup; [|done].
    unfold V2.uploadAt in Hup.
    destruct (V2.MultipartUploads (V2.l ls)) as [uploads|] eqn:Hu; [|done].
    destruct (Hf uploads id mpart Hu Hup) as [_ Hparts]. by rewrite Hparts.
  - intros id parts. unfold V2.GetObjectParts, V2.mbind, V2.liftLedger.
    destruct (V2.multipartExists (V2.l ls) id) as [[]| |]; [|done|done].
    destruct (V2.uploadAt (V2.l ls) id) as [up|] eqn:Hup; [|done].
    simpl. intros [= <-]. unfold V2.uploadAt in Hup.
    destruct (V2.MultipartUploads (V2.l ls)) as [uploads|] eqn:Hu; [|done].
    by destruct (Hf uploads id up Hu Hup).
  - intros id Hne. unfold V2.MultipartIDExists, V2.liftLedger, V2.multipartExists,
      V2.uploadAt. simpl.
    destruct (V2.MultipartUploads (V2.l ls)) as [uploads|] eqn:Hu.
    + destruct (uploads !! id) as [up|] eqn:Hup.
      * destruct (Hf uploads id up Hu Hup) as [-> _].
        rewrite (String_eqb_neq _ _ Hne). split; eauto.
      * split; [done|]. by intros [? ?].
    + split; [done|]. by intros [? ?].
Qed.

Lemma uploads_never_hold_parts_witness :
  V2.uploadsReachable Scenario.uploading /\
  fst (V2.PutObjectPart "b1" "big" "QmPart" "id1" 1 Scenario.uploading) <> Ok tt /\
  fst (V2.GetObjectParts "id1" Scenario.uploading) = Ok None /\
  (fst (V2.MultipartIDExists "id1" Scenario.uploading) = Ok tt
   <-> is_Some (V2.uploadAt (V2.l Scenario.uploading) "id1")).
Proof.
  assert (V2.uploadsReachable Scenario.uploading) as Hr.
  { eapply V2.uploadsReachable_step.
    - apply (V2.uploadsReachable_new Scenario.created). reflexivity.
    - apply V2.uploadStep_New. }
  destruct (uploads_never_hold_parts Scenario.uploading Hr) as (H1 & H2 & H3).
  split; [exact Hr|]. split; [apply H1|]. split; [reflexivity|].
  apply H3. discriminate.
Defined.

(** X18: a NewMultipartUpload that succeeds registers the upload under
    its id with the object info given and no parts, leaves every other
    upload and the buckets as they were; afterwards MultipartIDExists
    succeeds for the id unless the id is the empty string, for which it
    fails with the invalid-upload-id error; and for a non-empty id
    GetObjectParts answers the nil map and AbortMultipartUpload on the
    bucket of the info succeeds and removes the upload. *)
Theorem NewMultipartUpload_registers (id : string) (info : ObjectInfo)
  (ls ls' : V2.ledgerStore) :
  V2.NewMultipartUpload id info ls = (Ok tt, ls') ->
  V2.ds ls' = V2.ds ls /\ V2.dag ls' = V2.dag ls /\ V2.cache ls' = V2.cache ls /\
  V2.uploadAt (V2.l ls') id = Some (V2.mkMultipartUpload info id None) /\
  (forall id', id' <> id -> V2.uploadAt (V2.l ls') id' = V2.uploadAt (V2.l ls) id') /\
  fst (V2.MultipartIDExists id ls')
    = (if String.eqb id "" then Err ErrInvalidUploadID else Ok tt) /\
  (id <> "" ->
   fst (V2.GetObjectParts id ls') = Ok None /\
   fst (V2.AbortMultipartUpload (Bucket info) id ls') = Ok tt /\
   V2.uploadAt (V2.l (snd (V2.AbortMultipartUpload (Bucket info) id ls'))) id = None).
Proof.
  unfold V2.NewMultipartUpload, V2.mbind.
  destruct (V2.assertBucketExits (Bucket info) ls) as [[[]| |] ls1] eqn:Ha; try done.
  apply assertBucketExits_inv in Ha as [-> Hb]. intros [= <-]. simpl.
  split; [done|]. split; [done|]. split; [done|].
  unfold V2.uploadAt, V2.MultipartIDExists, V2.GetObjectParts, V2.AbortMultipartUpload,
    V2.mbind, V2.liftLedger, V2.multipartExists, V2.bucketExists, V2.uploadAt. simpl.
  rewrite !lookup_insert_eq. simpl. split; [done|]. split.
  { intros id' Hne. rewrite lookup_insert_ne by done.
    destruct (V2.MultipartUploads (V2.l ls)); simpl; [done|]. by rewrite lookup_empty. }
  split; [done|]. intros Hne. rewrite (String_eqb_neq _ _ Hne). simpl.
  rewrite bool_decide_true by done. simpl.
  rewrite ?lookup_insert_eq. simpl. rewrite ?(String_eqb_neq _ _ Hne). simpl.
  by rewrite lookup_delete_eq.
Qed.

Lemma NewMultipartUpload_registers_witness :
  V2.NewMultipartUpload "id1" (mkObjectInfo "b1" "big" 0 0 "" "" "" "") Scenario.created
    = (Ok tt, Scenario.uploading) /\
  "id1" <> "" /\
  fst (V2.MultipartIDExists "id1" Scenario.uploading) = Ok tt /\
  fst (V2.GetObjectParts "id1" Scenario.uploading) = Ok None /\
  fst (V2.AbortMultipartUpload "b1" "id1" Scenario.uploading) = Ok tt /\
  V2.uploadAt (V2.l Scenario.aborted) "id1" = None /\
  fst (V2.MultipartIDExists ""
         (snd (V2.NewMultipartUpload "" (mkObjectInfo "b1" "big" 0 0 "" "" "" "")
                 Scenario.created))) = Err ErrInvalidUploadID.
Proof.
  assert (V2.NewMultipartUpload "id1" (mkObjectInfo "b1" "big" 0 0 "" "" "" "")
            Scenario.created = (Ok tt, Scenario.uploading)) as Hnew.
  { vm_compute. reflexivity. }
  destruct (NewMultipartUpload_registers _ _ _ _ Hnew)
    as (_ & _ & _ & _ & _ & Hex & Hrest).
  destruct Hrest as (Hparts & Habort & Hgone); [discriminate|].
  split; [exact Hnew|]. split; [discriminate|]. split; [exact Hex|].
  split; [exact Hparts|]. split; [exact Habort|]. split; [exact Hgone|].
  destruct (NewMultipartUpload_registers ""
              (mkObjectInfo "b1" "big" 0 0 "" "" "" "") Scenario.created _ eq_refl)
    as (_ & _ & _ & _ & _ & Hempty & _).
  exact Hempty.
Defined.

(** X19: while the uploads map was never allocated, no multipart
    operation panics and every id is reported invalid:
    MultipartIDExists and GetObjectParts fail with the
    invalid-upload-id error, and so do AbortMultipartUpload and
    PutObjectPart on a bucket that exists; on a bucket that does not
    exist these two fail with the bucket-does-not-exist error. The store
    is left as it was. *)
Theorem no_upload_every_id_invalid (ls : V2.ledgerStore)
  (id bucket objectName partHash : string) (partNumber : Z) :
  V2.MultipartUploads (V2.l ls) = None ->
  V2.MultipartIDExists id ls = (Err ErrInvalidUploadID, ls) /\
  V2.GetObjectParts id ls = (Err ErrInvalidUploadID, ls) /\
  V2.AbortMultipartUpload bucket id ls
    = (Err (if bool_decide (is_Some (V2.ds ls !! bucket))
            then ErrInvalidUploadID else ErrLedgerBucketDoesNotExist), ls) /\
  V2.PutObjectPart bucket objectName partHash id partNumber ls
    = (Err (if bool_decide (is_Some (V2.ds ls !! bucket))
            then ErrInvalidUploadID else ErrLedgerBucketDoesNotExist), ls).
Proof.
  intros Hnone.
  unfold V2.MultipartIDExists, V2.GetObjectParts, V2.AbortMultipartUpload,
    V2.PutObjectPart, V2.assertBucketExits, V2.mbind, V2.liftLedger,
    V2.multipartExists, V2.bucketExists, V2.uploadAt, V2.throw, V2.ret.
  case_bool_decide; simpl; rewrite ?Hnone; done.
Qed.

Lemma no_upload_every_id_invalid_witness :
  V2.MultipartUploads (V2.l Scenario.created) = None /\
  V2.MultipartIDExists "id1" Scenario.created
    = (Err ErrInvalidUploadID, Scenario.created) /\
  V2.PutObjectPart "b1" "big" "QmPart" "id1" 1 Scenario.created
    = (Err ErrInvalidUploadID, Scenario.created) /\
  V2.AbortMultipartUpload "nope" "id1" Scenario.created
    = (Err ErrLedgerBucketDoesNotExist, Scenario.created).
Proof.
  destruct (no_upload_every_id_invalid Scenario.created "id1" "b1" "big" "QmPart" 1
              eq_refl) as (H1 & _ & _ & H4).
  destruct (no_upload_every_id_invalid Scenario.created "id1" "nope" "big" "QmPart" 1
              eq_refl) as (_ & _ & H3 & _).
  split; [reflexivity|]. split; [exact H1|]. split; [exact H4|exact H3].
Defined.

(** X20: an AbortMultipartUpload that succeeds removes the upload of
    the id and nothing else: every other upload, the local index, the
    DAG store and the cache are as they were. *)
Theorem AbortMultipartUpload_removes_only_the_upload (bucket id : string)
  (ls ls' : V2.ledgerStore) :
  V2.AbortMultipartUpload bucket id ls = (Ok tt, ls') ->
  V2.uploadAt (V2.l ls') id = None /\
  (forall id', id' <> id -> V2.uploadAt (V2.l ls') id' = V2.uploadAt (V2.l ls) id') /\
  V2.ds ls' = V2.ds ls /\ V2.dag ls' = V2.dag ls /\ V2.cache ls' = V2.cache ls /\
  is_Some (V2.uploadAt (V2.l ls) id) /\ is_Some (V2.ds ls !! bucket).
Proof.
  unfold V2.AbortMultipartUpload, V2.mbind, V2.bucketExists, V2.liftLedger, V2.throw.
  case_bool_decide as Hb; simpl; [|done].
  destruct (V2.multipartExists (V2.l ls) id) as [[]| |] eqn:Hex; [|done|done].
  intros [= <-]. unfold V2.uploadAt, V2.multipartExists in *. simpl.
  destruct (V2.MultipartUploads (V2.l ls)) as [uploads|]; [|done]. simpl.
  rewrite lookup_delete_eq. split; [done|]. split.
  { intros id' Hne. by rewrite lookup_delete_ne. }
  repeat split; try done. by destruct (uploads !! id).
Qed.

Lemma AbortMultipartUpload_removes_only_the_upload_witness :
  V2.AbortMultipartUpload "b1" "id1" Scenario.uploading = (Ok tt, Scenario.aborted) /\
  V2.uploadAt (V2.l Scenario.aborted) "id1" = None /\
  V2.ds Scenario.aborted = V2.ds Scenario.uploading.
Proof.
  assert (V2.AbortMultipartUpload "b1" "id1" Scenario.uploading
          = (Ok tt, Scenario.aborted)) as Habort.
  { vm_compute. reflexivity. }
  destruct (AbortMultipartUpload_removes_only_the_upload _ _ _ _ Habort)
    as (H1 & _ & H3 & _).
  split; [exact Habort|]. split; [exact H1|exact H3].
Defined.

(** ** The DAG syncer over its datastore *)

Section SyncerStore.

Variable Cid : Type.
Context `{EqDecision Cid}.
Variables Node Datastore : Type.
Variable Dag : Cid -> error + list byte.
Variable blockCid : list byte -> Cid.
Variable Decode : list byte -> error + Node.
Variable dsPut : Cid -> Datastore -> option error * Datastore.
Variable dsDelete : Cid -> Datastore -> option error * Datastore.
Variable dsHas : Cid -> Datastore -> error + bool.
Variable nodeCid : Node -> Cid.
Variable isProtoNode : Node -> bool.
Variable ipfsSaveProtoNode : Node -> option error.
Variable WithMessage : error -> string -> error.

Local Abbreviation Get := (DagSyncer.Get Cid Node Datastore Dag blockCid Decode dsPut).
Local Abbreviation GetMany :=
  (DagSyncer.GetMany Cid Node Datastore Dag blockCid Decode dsPut).
Local Abbreviation AddMany :=
  (DagSyncer.AddMany Cid Node Datastore dsPut nodeCid isProtoNode ipfsSaveProtoNode
     WithMessage).
Local Abbreviation RemoveMany := (DagSyncer.RemoveMany Cid Datastore dsDelete).
Local Abbreviation HasBlock := (DagSyncer.HasBlock Cid Datastore dsHas).

(** A node Get returns was decoded from bytes whose CID is the one asked
    for. *)
Lemma Get_node_verified (c : Cid) (store store' : Datastore) (n : Node)
  (err : option error) :
  Get c store = ((Some n, err), store') ->
  exists RawData, Dag c = inr RawData /\ blockCid RawData = c /\ Decode RawData = inr n.
Proof.
  unfold DagSyncer.Get.
  destruct (Dag c) as [e|RawData]; [done|].
  case_decide as Hc; [|done].
  destruct (Decode RawData) as [e|n'] eqn:Hd; simpl; [done|].
  destruct (dsPut c store) as [err' store'']. intros [= -> _ _]. eauto.
Qed.

(** X21: when a Put that succeeds makes Has answer true for its key,
    a Get that returns a node and no error leaves the block marked:
    HasBlock answers true for the CID. A Get that returns no node
    returns an error and leaves the datastore as it was. *)
Theorem Get_marks_the_block (c : Cid) (store : Datastore) :
  (forall k s s', dsPut k s = (None, s') -> dsHas k s' = inr true) ->
  (forall n store',
     Get c store = ((Some n, None), store') -> HasBlock c store' = inr true) /\
  (forall err store',
     Get c store = ((None, err), store') -> store' = store /\ err <> None).
Proof.
  intros Hput. unfold DagSyncer.Get, DagSyncer.HasBlock. split.
  - intros n store'.
    destruct (Dag c) as [e|RawData]; [done|].
    case_decide as Hc; [|done].
    destruct (Decode RawData) as [e|n']; simpl; [done|].
    destruct (dsPut c store) as [err' store''] eqn:Hp. intros [= -> -> <-].
    by eapply Hput.
  - intros err store'.
    destruct (Dag c) as [e|RawData]; [by intros [= <- <-]|].
    case_decide as Hc; [|by intros [= <- <-]].
    destruct (Decode RawData) as [e|n']; simpl; [by intros [= <- <-]|].
    by destruct (dsPut c store).
Qed.

(** X22: when a Delete that succeeds makes Has answer false for its key
    and leaves Has of every other key as it was, a RemoveMany that
    returns no error leaves HasBlock false for every CID of the list and
    unchanged for every other CID. *)
Theorem RemoveMany_unmarks_the_blocks (cs : list Cid) (store store' : Datastore) :
  (forall k s s',
     dsDelete k s = (None, s') ->
     dsHas k s' = inr false /\ forall k', k' <> k -> dsHas k' s' = dsHas k' s) ->
  RemoveMany cs store = (None, store') ->
  (forall c, c ∈ cs -> HasBlock c store' = inr false) /\
  (forall c, c ∉ cs -> HasBlock c store' = HasBlock c store).
Proof.
  intros Hdel. unfold DagSyncer.HasBlock. revert store.
  induction cs as [|k cs IH]; intros store; simpl.
  { intros [= <-]. split; [by intros c ?%elem_of_nil|done]. }
  destruct (dsDelete k store) as [[e|] s1] eqn:Hk; [done|].
  intros Hrest. destruct (IH s1 Hrest) as [Hin Hout].
  destruct (Hdel k store s1 Hk) as [Hfalse Hframe]. split.
  - intros c [->|Hc]%elem_of_cons; [|by apply Hin].
    destruct (decide (k ∈ cs)) as [Hkin|Hkout]; [by apply Hin|].
    by rewrite (Hout k Hkout).
  - intros c [Hne Hc]%not_elem_of_cons. rewrite (Hout c Hc). by apply Hframe.
Qed.

(** X23: when a Put that succeeds makes Has answer true for its key and
    keeps the keys that were there, an AddMany that returns no error
    went through the whole list: every node is a proto node, was saved
    on the remote node without error, and HasBlock answers true for its
    CID. In particular AddMany fails when a node of the list is not a
    proto node. *)
Theorem AddMany_marks_every_node (ns : list Node) (store store' : Datastore) :
  (forall k s s',
     dsPut k s = (None, s') ->
     dsHas k s' = inr true /\ forall k', dsHas k' s = inr true -> dsHas k' s' = inr true) ->
  AddMany ns store = (None, store') ->
  Forall (fun n => isProtoNode n = true /\ ipfsSaveProtoNode n = None /\
                   HasBlock (nodeCid n) store' = inr true) ns.
Proof.
  intros Hput. unfold DagSyncer.HasBlock.
  assert (forall ns s s' k,
            AddMany ns s = (None, s') -> dsHas k s = inr true -> dsHas k s' = inr true)
    as Hkeep.
  { clear store store' ns. intros ns. induction ns as [|n ns IH]; intros s s' k; simpl.
    { by intros [= <-]. }
    destruct (isProtoNode n); [|done].
    destruct (ipfsSaveProtoNode n); [done|].
    destruct (dsPut (nodeCid n) s) as [[e|] s1] eqn:Hp; [done|].
    intros Hrest Hk. eapply IH; [exact Hrest|].
    by apply (proj2 (Hput _ _ _ Hp)). }
  revert store. induction ns as [|n ns IH]; intros store; simpl; [by constructor|].
  destruct (isProtoNode n) eqn:Hproto; [|done].
  destruct (ipfsSaveProtoNode n) eqn:Hsave; [done|].
  destruct (dsPut (nodeCid n) store) as [[e|] s1] eqn:Hp; [done|].
  intros Hrest. constructor; [|by eapply IH].
  split; [done|]. split; [done|].
  eapply Hkeep; [exact Hrest|]. by apply (proj1 (Hput _ _ _ Hp)).
Qed.

(** X24: GetMany sends one node option per CID asked, in the order of
    the CIDs, and every node it sends was decoded from bytes whose
    recomputed CID is the CID of its position. *)
Theorem GetMany_one_verified_option_per_cid (cs : list Cid) (store : Datastore) :
  Forall2 (fun c out =>
             forall n, fst out = Some n ->
               exists RawData,
                 Dag c = inr RawData /\ blockCid RawData = c /\ Decode RawData = inr n)
    cs (fst (GetMany cs store)).
Proof.
  revert store. induction cs as [|c cs IH]; intros store; simpl; [constructor|].
  destruct (Get c store) as [[node err] s1] eqn:Hget.
  specialize (IH s1). destruct (GetMany cs s1) as [outs s2]. simpl in *.
  constructor; [|done]. simpl. intros n ->. by eapply Get_node_verified.
Qed.

End SyncerStore.

Lemma seenPut_law (k : string) (s s' : list string) :
  Scenario.seenPut k s = (None, s') ->
  Scenario.seenHas k s' = inr true /\
  forall k', Scenario.seenHas k' s = inr true -> Scenario.seenHas k' s' = inr true.
Proof.
  unfold Scenario.seenPut, Scenario.seenHas. intros [= <-]. split.
  - f_equal. apply bool_decide_eq_true. apply list_elem_of_here.
  - intros k' [= Hk%bool_decide_eq_true]. f_equal. apply bool_decide_eq_true.
    by apply list_elem_of_further.
Qed.

Lemma seenDelete_law (k : string) (s s' : list string) :
  Scenario.seenDelete k s = (None, s') ->
  Scenario.seenHas k s' = inr false /\
  forall k', k' <> k -> Scenario.seenHas k' s' = Scenario.seenHas k' s.
Proof.
  unfold Scenario.seenDelete, Scenario.seenHas. intros [= <-].
  assert (forall k', k' ∈ List.filter (fun c' => negb (String.eqb c' k)) s
                     <-> k' ∈ s /\ k' <> k) as Hfilter.
  { intros k'. rewrite !list_elem_of_In, filter_In, negb_true_iff.
    by rewrite String_eqb_false_iff. }
  split.
  - f_equal. apply bool_decide_eq_false. rewrite Hfilter. by intros [_ ?].
  - intros k' Hne. f_equal. apply bool_decide_ext. rewrite Hfilter. tauto.
Qed.

Lemma Get_marks_the_block_witness :
  DagSyncer.Get string (list byte) (list string) Scenario.helloDag Scenario.rawCid
    Scenario.rawDecode Scenario.seenPut "hello" []
    = ((Some Scenario.hello, None), ["hello"]) /\
  DagSyncer.HasBlock string (list string) Scenario.seenHas "hello" [] = inr false /\
  DagSyncer.HasBlock string (list string) Scenario.seenHas "hello" ["hello"]
    = inr true /\
  DagSyncer.Get string (list byte) (list string) Scenario.helloDag Scenario.rawCid
    Scenario.rawDecode Scenario.seenPut "other" ["x"]
    = ((None, Some ErrUnexpectedData), ["x"]).
Proof.
  destruct (Get_marks_the_block string (list byte) (list string) Scenario.helloDag
              Scenario.rawCid Scenario.rawDecode Scenario.seenPut Scenario.seenHas
              "hello" [])
    as [Hmark _].
  { intros k s s' Hp. by apply (proj1 (seenPut_law k s s' Hp)). }
  split; [reflexivity|]. split; [reflexivity|].
  split; [apply (Hmark Scenario.hello); reflexivity|reflexivity].
Defined.

Lemma RemoveMany_unmarks_the_blocks_witness :
  DagSyncer.RemoveMany string (list string) Scenario.seenDelete ["a"; "b"]
    ["a"; "c"; "b"] = (None, ["c"]) /\
  DagSyncer.HasBlock string (list string) Scenario.seenHas "a" ["c"] = inr false /\
  DagSyncer.HasBlock string (list string) Scenario.seenHas "c" ["c"]
    = DagSyncer.HasBlock string (list string) Scenario.seenHas "c" ["a"; "c"; "b"].
Proof.
  assert (DagSyncer.RemoveMany string (list string) Scenario.seenDelete ["a"; "b"]
            ["a"; "c"; "b"] = (None, ["c"])) as Hrm by reflexivity.
  destruct (RemoveMany_unmarks_the_blocks string (list string) Scenario.seenDelete
              Scenario.seenHas ["a"; "b"] ["a"; "c"; "b"] ["c"] seenDelete_law Hrm)
    as [Hin Hout].
  split; [exact Hrm|]. split.
  - apply Hin. apply list_elem_of_here.
  - apply Hout. intros Hc. apply elem_of_cons in Hc as [Hc|Hc]; [discriminate Hc|].
    apply elem_of_cons in Hc as [Hc|Hc]; [discriminate Hc|].
    by apply elem_of_nil in Hc.
Defined.

Lemma AddMany_marks_every_node_witness :
  DagSyncer.AddMany string (list byte) (list string) Scenario.seenPut Scenario.rawCid
    Scenario.allProto Scenario.savedOk Scenario.keepCause [Scenario.hello] []
    = (None, ["hello"]) /\
  Forall (fun n =>
            Scenario.allProto n = true /\ Scenario.savedOk n = None /\
            DagSyncer.HasBlock string (list string) Scenario.seenHas
              (Scenario.rawCid n) ["hello"] = inr true)
    [Scenario.hello].
Proof.
  assert (DagSyncer.AddMany string (list byte) (list string) Scenario.seenPut
            Scenario.rawCid Scenario.allProto Scenario.savedOk Scenario.keepCause
            [Scenario.hello] [] = (None, ["hello"])) as Hadd by reflexivity.
  split; [exact Hadd|].
  exact (AddMany_marks_every_node string (list byte) (list string) Scenario.seenPut
           Scenario.seenHas Scenario.rawCid Scenario.allProto Scenario.savedOk
           Scenario.keepCause [Scenario.hello] [] ["hello"] seenPut_law Hadd).
Defined.

(** ** Opposite copies *)

(** X25: for two distinct buckets, CopyObject from the first to the
    second and CopyObject from the second to the first take their first
    lock on the same bucket, the one with the greater name, and their
    second lock on the other; in both, the lock on the source is a read
    lock and the lock on the destination a write lock. *)
Theorem opposite_copies_lock_in_the_same_order (a b : string) :
  a <> b ->
  map V2.lockName (V2.CopyObject_locks a b) = map V2.lockName (V2.CopyObject_locks b a) /\
  (exists first second,
     map V2.lockName (V2.CopyObject_locks a b) = [first; second] /\
     string_lt second first) /\
  V2.LockRead a ∈ V2.CopyObject_locks a b /\ V2.LockWrite b ∈ V2.CopyObject_locks a b /\
  V2.LockRead b ∈ V2.CopyObject_locks b a /\ V2.LockWrite a ∈ V2.CopyObject_locks b a.
Proof.
  intros Hne. unfold V2.CopyObject_locks.
  rewrite (String_eqb_neq a b Hne), (String_eqb_neq b a) by congruence.
  destruct (strings_Compare_trichotomy a b Hne) as [Hlt|Hlt].
  - pose proof Hlt as Hba. apply strings_Compare_gt in Hba. rewrite Hba.
    assert ((strings_Compare a b >? 0) = false) as ->.
    { destruct (strings_Compare a b >? 0) eqn:Hc; [|done].
      apply strings_Compare_gt in Hc.
      destruct (string_lt_irrefl a). by eapply string_lt_trans. }
    simpl. split; [done|]. split; [by exists b, a|].
    repeat split; repeat constructor.
  - pose proof Hlt as Hab. apply strings_Compare_gt in Hab. rewrite Hab.
    assert ((strings_Compare b a >? 0) = false) as ->.
    { destruct (strings_Compare b a >? 0) eqn:Hc; [|done].
      apply strings_Compare_gt in Hc.
      destruct (string_lt_irrefl a). by eapply string_lt_trans. }
    simpl. split; [done|]. split; [by exists a, b|].
    repeat split; repeat constructor.
Qed.

Lemma opposite_copies_lock_in_the_same_order_witness :
  "b1" <> "b2" /\
  map V2.lockName (V2.CopyObject_locks "b1" "b2") = ["b2"; "b1"] /\
  map V2.lockName (V2.CopyObject_locks "b1" "b2")
    = map V2.lockName (V2.CopyObject_locks "b2" "b1").
Proof.
  split; [discriminate|]. split; [reflexivity|].
  apply (opposite_copies_lock_in_the_same_order "b1" "b2"). discriminate.
Defined.
